(** * Connections indexer (session/modules/connections/ConnectionsIndexer.cpp)

    A shallow embedding of the connections registry, of the indexer that
    rebuilds it, and of the console trigger, followed by the properties
    the specification states about them. *)

From Stdlib Require Import Ascii.
From Equations Require Import Equations.
From Equations.Prop Require Import Logic.
From stdpp Require Import gmap strings list fin_maps.

Set Warnings "-register-all,-clear-no-such-hyp".

Local Open Scope string_scope.
Local Open Scope list_scope.

(** ** Characters and strings *)

Definition LF : ascii := Ascii.Ascii false true false true false false false false.
Definition DQUOTE : ascii := Ascii.Ascii false true false false false true false false.

Definition nl : string := String LF "".
Definition dq : string := String DQUOTE "".

Definition is_LF (c : ascii) : bool := Ascii.eqb c LF.

(** [std::isspace] in the classic locale: space, \t, \n, \v, \f, \r. *)
Definition is_space (c : ascii) : bool :=
  let n := Ascii.nat_of_ascii c in
  Nat.eqb n 32 || (Nat.leb 9 n && Nat.leb n 13).

(** ** JSON values

    Modelled from the spec: [core::json] (section 6, registry wire
    format). A value is a string or an object; an object maps member
    names to values, and [object[key] = v] inserts or overwrites. *)

Inductive Value :=
| JString (s : string)
| JObject (members : gmap string Value).

Abbreviation Object := (gmap string Value).

(** ** [ConnectionsIndexEntry] *)

Record ConnectionsIndexEntry := mkEntry {
  name_ : string;
  package_ : string
}.

(** The default constructor leaves both strings empty. *)
Definition defaultEntry : ConnectionsIndexEntry := mkEntry "" "".

Definition getName (e : ConnectionsIndexEntry) : string := name_ e.
Definition getPackage (e : ConnectionsIndexEntry) : string := package_ e.

Module Entry.
Definition toJson (e : ConnectionsIndexEntry) : Object :=
  let object : Object := ∅ in
  let object := <["name" := JString (name_ e)]> object in
  let object := <["package" := JString (package_ e)]> object in
  object.
End Entry.

(** ** [std::map::operator[]]: a missing key is inserted with a
    default-constructed value before the reference is returned. *)

Definition subscript {V} (dflt : V) (key : string) (m : gmap string V)
  : V * gmap string V :=
  match m !! key with
  | Some v => (v, m)
  | None => (dflt, <[key := dflt]> m)
  end.

(** ** [ConnectionsRegistry]: its only member is
    [std::map<std::string, ConnectionsIndexEntry> connections_]. *)

Abbreviation Registry := (gmap string ConnectionsIndexEntry).

Definition constructKey (package name : string) : string :=
  package +:+ "::" +:+ name.

(** [add(package, spec)] *)
Definition add (package : string) (spec : ConnectionsIndexEntry)
  (connections_ : Registry) : Registry :=
  <[constructKey package (getName spec) := spec]> connections_.

(** [add(pkgName, fields)]; [fields["Name"]] goes through [operator[]]. *)
Definition add_fields (pkgName : string) (fields : gmap string string)
  (connections_ : Registry) : Registry :=
  let '(name, _) := subscript "" "Name" fields in
  add pkgName (mkEntry name pkgName) connections_.

(** [contains]: [std::map::count] is 0 or 1. *)
Definition contains (package name : string) (connections_ : Registry) : bool :=
  bool_decide (is_Some (connections_ !! constructKey package name)).

(** [get] returns the entry and leaves the map as [operator[]] left it. *)
Definition get (package name : string) (connections_ : Registry)
  : ConnectionsIndexEntry * Registry :=
  subscript defaultEntry (constructKey package name) connections_.

(** [toJson]: one member per key of [connections_], holding the JSON of
    [connections_.at(key)]; [at] cannot miss, the keys are the map's own,
    and the order of the keys does not show in the resulting object. *)
Definition toJson (connections_ : Registry) : Object :=
  foldl (fun (object : Object) key =>
           match connections_ !! key with
           | Some e => <[key := JObject (Entry.toJson e)]> object
           | None => object
           end)
        ∅ (map_to_list connections_).*1.

Definition size (connections_ : Registry) : nat := base.size connections_.

(** A sequence of [add(package, spec)] calls, oldest first. *)
Definition adds (calls : list (string * ConnectionsIndexEntry))
  (connections_ : Registry) : Registry :=
  foldl (fun r call => add call.1 call.2 r) connections_ calls.

Definition call_key (call : string * ConnectionsIndexEntry) : string :=
  constructKey call.1 (getName call.2).

(** ** Splitting a descriptor file into blocks

    [boost::sregex_token_iterator it(begin, end, reSeparator, -1)] with
    [reSeparator = "\\n{2,}"] enumerates the text between matches. *)

Fixpoint skip_LF (s : string) : string :=
  match s with
  | String c s' => if is_LF c then skip_LF s' else s
  | EmptyString => s
  end.

Definition starts_with_LF (s : string) : bool :=
  match s with
  | String c _ => is_LF c
  | EmptyString => false
  end.

(** [regex_search] for [\n{2,}]: the leftmost place where two line feeds
    meet, extended greedily over every line feed that follows. The result
    is the text before the match and the text after it. *)
Fixpoint regex_search (s : string) : option (string * string) :=
  match s with
  | EmptyString => None
  | String c s' =>
      if is_LF c && starts_with_LF s' then Some (EmptyString, skip_LF s')
      else match regex_search s' with
           | Some (before, rest) => Some (String c before, rest)
           | None => None
           end
  end.

(** The iterator: every match yields the text before it (empty or not);
    once no match is left, what remains is yielded only when it is not
    empty. *)
Equations tokens (s : string) : list string by wf (String.length s) lt :=
  tokens s with inspect (regex_search s) := {
    | exist _ (Some (pair before rest)) found => before :: tokens rest
    | exist _ None _ => if decide (s = EmptyString) then [] else [s] }.
Next Obligation.
  intros s before rest found _. simpl in found. revert before rest found.
  induction s as [|c s IH]; intros before rest; simpl; [done|].
  destruct (is_LF c && starts_with_LF s).
  - intros [= _ <-]. clear. induction s as [|d s IH]; simpl; [lia|].
    destruct (is_LF d); simpl in *; lia.
  - destruct (regex_search s) as [[p r]|]; [|done].
    intros [= _ <-]. specialize (IH _ _ eq_refl). lia.
Qed.

(** ** Collaborators that the file calls and does not define *)

(** Modelled from the spec: [core::Error] (core/Error.hpp). The indexer
    only tests an error for being set, logs it, or hands [Success()] to a
    continuation; an error is set when its code is not zero. *)
Record Error := mkError {
  error_code : Z;
  error_what : string
}.

(** Modelled from the spec: [core::Success()], the error that is not set. *)
Definition Success : Error := mkError 0 "".

(** Modelled from the spec: the test [if (error)]. *)
Definition isError (error : Error) : bool := negb (error_code error =? 0)%Z.

(** Modelled from the spec: [core::FilePath] (core/FilePath.hpp), a path
    held as text. *)
Definition FilePath := string.

(** Modelled from the spec: [FilePath::childPath] (section 6), the fixed
    relative path below the project root. *)
Definition childPath (base relative : FilePath) : FilePath :=
  base +:+ "/" +:+ relative.

(** What the session offers to this file: the file system, the
    descriptor parser, the R search path, the active project and the
    packages-pane switch. [readStringFromFile] (here always with
    [LineEndingPosix]) and [parseDcfFile] (here always with
    [preserveKeyCase = true]) return their [Error] together with what
    they left in their out-parameter. *)
Record Host := mkHost {
  readStringFromFile : FilePath → Error * string;
  parseDcfFile : string → Error * gmap string string;
  rSearch : Error * list string;
  buildTargetPath : FilePath;
  pathExists : FilePath → bool;
  packageInfoName : string;
  disablePackages : bool
}.

(** Modelled from the spec: [json::JsonRpcResponse] (section 4.3), the
    response a continuation receives; its payload is unset until
    [setResult]. *)
Record JsonRpcResponse := mkResponse { result : option Object }.

(** Modelled from the spec: [JsonRpcResponse::setResult]. *)
Definition setResult (json : Object) (_ : JsonRpcResponse) : JsonRpcResponse :=
  mkResponse (Some json).

(** Modelled from the spec: a non-empty
    [json::JsonRpcFunctionContinuation] (section 3), known by its
    identity. [continuations_] only ever receives non-empty ones: its one
    writer, [addContinuation], is called under [if (continuation)]. *)
Definition Continuation := nat.

(** The function object as a caller holds it, possibly empty. *)
Definition JsonRpcFunctionContinuation := option Continuation.

(** Work handed to [module_context::scheduleDelayedWork]; the file
    schedules one function only, [indexLibraryPaths]. *)
Inductive Work := indexLibraryPathsWork.

(** What the file does to the outside, in the order it does it: it
    logs an error, calls a continuation with an error value and a
    response, or schedules delayed work (delay in seconds, the work, and
    whether to wait for the session to be idle). *)
Inductive Effect :=
| LOG_ERROR (error : Error)
| Resolve (continuation : Continuation) (error : Error) (response : JsonRpcResponse)
| scheduleDelayedWork (seconds : nat) (work : Work) (idleOnly : bool).

(** ** Reading descriptor files into a registry *)

Section WithHost.
Variable host : Host.

Definition parseConnectionsDcf (contents : string)
  : gmap string string * list Effect :=
  let '(error, fields) := parseDcfFile host contents in
  (fields, if isError error then [LOG_ERROR error] else []).

(** The body of the loop over the blocks of a file; the second
    component collects what was logged. *)
Definition add_block (pkgName : string) (acc : Registry * list Effect)
  (block : string) : Registry * list Effect :=
  let '(fields, logged) := parseConnectionsDcf block in
  (add_fields pkgName fields acc.1, acc.2 ++ logged).

(** [add(pkgName, connectionExtensionPath)] *)
Definition add_path (pkgName : string) (connectionExtensionPath : FilePath)
  (connections_ : Registry) : Registry * list Effect :=
  let '(error, contents) := readStringFromFile host connectionExtensionPath in
  if isError error then (connections_, [LOG_ERROR error])
  else foldl (add_block pkgName) (connections_, []) (tokens contents).

Definition isDevtoolsLoadAllActive : bool :=
  let '(error, search) := rSearch host in
  if isError error then false
  else bool_decide ("devtools_shims" ∈ search).
End WithHost.

(** ** The process state

    Registries live behind [boost::shared_ptr]: [heap] holds the objects,
    a pointer is an index into it and [None] is the null pointer.
    [make_shared] puts a fresh object at the end. Next to the two
    pointers and the queue of the source, the state carries the flag of
    the [ppe::Indexer] base class, the function-local static [commands]
    of [onConsoleInput], and the trace of effects. *)

Record State := mkState {
  heap : list Registry;
  s_pCurrentConnectionsRegistry : option nat;
  pRegistry_ : option nat;
  continuations_ : list Continuation;
  running_ : bool;
  commands : list string;
  effects : list Effect
}.

Definition set_heap (h : list Registry) (s : State) : State :=
  mkState h (s_pCurrentConnectionsRegistry s) (pRegistry_ s)
          (continuations_ s) (running_ s) (commands s) (effects s).
Definition set_current (p : option nat) (s : State) : State :=
  mkState (heap s) p (pRegistry_ s)
          (continuations_ s) (running_ s) (commands s) (effects s).
Definition set_pRegistry (p : option nat) (s : State) : State :=
  mkState (heap s) (s_pCurrentConnectionsRegistry s) p
          (continuations_ s) (running_ s) (commands s) (effects s).
Definition set_continuations (ks : list Continuation) (s : State) : State :=
  mkState (heap s) (s_pCurrentConnectionsRegistry s) (pRegistry_ s)
          ks (running_ s) (commands s) (effects s).
Definition set_running (b : bool) (s : State) : State :=
  mkState (heap s) (s_pCurrentConnectionsRegistry s) (pRegistry_ s)
          (continuations_ s) b (commands s) (effects s).
Definition set_commands (cs : list string) (s : State) : State :=
  mkState (heap s) (s_pCurrentConnectionsRegistry s) (pRegistry_ s)
          (continuations_ s) (running_ s) cs (effects s).
Definition emit (es : list Effect) (s : State) : State :=
  mkState (heap s) (s_pCurrentConnectionsRegistry s) (pRegistry_ s)
          (continuations_ s) (running_ s) (commands s) (effects s ++ es).

(** At start-up the current registry is a fresh empty one, the indexer's
    own pointer is null and nothing is queued. *)
Definition initial : State :=
  mkState [∅] (Some 0) None [] false [] [].

Definition make_shared (s : State) : nat * State :=
  (length (heap s), set_heap (heap s ++ [∅]) s).

(** Dereferencing; the null pointer has no object. *)
Definition deref (p : option nat) (s : State) : option Registry :=
  p ≫= λ a, heap s !! a.

(** [connectionsRegistry()] *)
Definition connectionsRegistry (s : State) : option Registry :=
  deref (s_pCurrentConnectionsRegistry s) s.

Definition updateConnectionsRegistry (pRegistry : option nat) (s : State) : State :=
  set_current pRegistry s.

(** [connectionsRegistryAsJson()] *)
Definition connectionsRegistryAsJson (s : State) : option Object :=
  toJson <$> connectionsRegistry s.

(** ** [ConnectionsIndexer] *)

Definition onIndexingStarted (s : State) : State :=
  let '(p, s) := make_shared s in
  set_pRegistry (Some p) s.

(** [pRegistry_->add(pkgName, path)] on the object [pRegistry_] points to. *)
Definition pRegistry_add (host : Host) (pkgName : string) (path : FilePath)
  (s : State) : option State :=
  p ← pRegistry_ s;
  r ← heap s !! p;
  let '(r', logged) := add_path host pkgName path r in
  Some (emit logged (set_heap (<[p := r']> (heap s)) s)).

Definition onWork (host : Host) (pkgName : string)
  (connectionExtensionPath : FilePath) (s : State) : option State :=
  pRegistry_add host pkgName connectionExtensionPath s.

(** [continuation(Success(), &response)] for every queued continuation,
    front to back. *)
Definition resolve_all (registryJson : Object) (s : State) : State :=
  foldl (fun s continuation =>
           let response := setResult registryJson (mkResponse None) in
           emit [Resolve continuation Success response] s)
        s (continuations_ s).

Definition onIndexingCompleted (host : Host) (s : State) : option State :=
  s ← (if isDevtoolsLoadAllActive host then
         let pkgPath := buildTargetPath host in
         let extensionPath := childPath pkgPath "inst/rstudio/connections.dcf" in
         if pathExists host extensionPath then
           let pkgName := packageInfoName host in
           pRegistry_add host pkgName extensionPath s
         else Some s
       else Some s);
  let s := updateConnectionsRegistry (pRegistry_ s) s in
  registryJson ← toJson <$> connectionsRegistry s;
  Some (resolve_all registryJson s).

Definition addContinuation (continuation : Continuation) (s : State) : State :=
  set_continuations (continuations_ s ++ [continuation]) s.

(** ** The [ppe::Indexer] base class (SessionPackageProvidedExtension),
    which is not part of the sources *)

(** Modelled from the spec: [Indexer::running()] (section 6) reports
    pass status. *)
Definition running (s : State) : bool := running_ s.

(** Modelled from the spec: [Indexer::start()] (sections 4.3 and 6) is a
    no-op while a pass is running and otherwise enters Running through
    [onIndexingStarted()]. *)
Definition start (s : State) : State :=
  if running s then s else onIndexingStarted (set_running true s).

(** Modelled from the spec: the scan driver (section 6) calls [onWork]
    once per descriptor file it finds while the pass is running. *)
Definition driver_work (host : Host) (pkgName : string) (path : FilePath)
  (s : State) : option State :=
  if running s then onWork host pkgName path s else None.

(** Modelled from the spec: the scan driver (sections 4.3 and 6) calls
    [onIndexingCompleted()] once after the walk; the indexer is Idle
    afterwards. *)
Definition driver_finish (host : Host) (s : State) : option State :=
  if running s then set_running false <$> onIndexingCompleted host s else None.

(** ** Entry points *)

Definition indexLibraryPathsWithContinuation
  (continuation : JsonRpcFunctionContinuation) (s : State) : State :=
  let s := match continuation with
           | Some k => addContinuation k s
           | None => s
           end in
  if negb (running s) then start s else s.

Definition indexLibraryPaths (s : State) : State :=
  indexLibraryPathsWithContinuation None s.

Definition onDeferredInit (_ : bool) (s : State) : State :=
  indexLibraryPaths s.

(** Running a piece of scheduled work. *)
Definition perform (work : Work) (s : State) : State :=
  match work with
  | indexLibraryPathsWork => indexLibraryPaths s
  end.

(** ** Console trigger *)

(** [boost::algorithm::trim_copy]: white space is removed at both ends. *)
Fixpoint trim_left (s : string) : string :=
  match s with
  | String c s' => if is_space c then trim_left s' else s
  | EmptyString => s
  end.

Definition trim_right (s : string) : string :=
  String.rev (trim_left (String.rev s)).

Definition trim_copy (s : string) : string := trim_right (trim_left s).

(** [boost::algorithm::starts_with(input, test)] *)
Definition starts_with (input test : string) : bool := String.prefix test input.

Definition known_commands : list string :=
  [ "install.packages"; "remove.packages"; "devtools::install_github";
    "install_github"; "devtools::load_all"; "load_all" ].

(** The [BOOST_FOREACH] over [commands]; the first match schedules the
    re-index and returns. *)
Fixpoint scan_commands (trimmedInput : string) (cmds : list string)
  (s : State) : State :=
  match cmds with
  | [] => s
  | command :: cmds' =>
      if starts_with trimmedInput command
      then emit [scheduleDelayedWork 1 indexLibraryPathsWork true] s
      else scan_commands trimmedInput cmds' s
  end.

Definition onConsoleInput (host : Host) (input : string) (s : State) : State :=
  if disablePackages host then s
  else
    let s := match commands s with
             | [] => set_commands known_commands s
             | _ :: _ => s
             end in
    let trimmedInput := trim_copy input in
    scan_commands trimmedInput (commands s) s.

(** ** The session seen from outside: requests, driver callbacks and
    console lines arrive one at a time. *)

Inductive Event :=
| Request (continuation : JsonRpcFunctionContinuation)
| DriverWork (pkgName : string) (path : FilePath)
| DriverFinish
| ConsoleInput (input : string).

Definition step (host : Host) (s : State) (ev : Event) : option State :=
  match ev with
  | Request k => Some (indexLibraryPathsWithContinuation k s)
  | DriverWork pkgName path => driver_work host pkgName path s
  | DriverFinish => driver_finish host s
  | ConsoleInput input => Some (onConsoleInput host input s)
  end.

Fixpoint run (host : Host) (evs : list Event) (s : State) : option State :=
  match evs with
  | [] => Some s
  | ev :: evs' => step host s ev ≫= run host evs'
  end.

(** How often a continuation was resolved, and with what. *)
Definition resolutions (k : Continuation) (es : list Effect) : list JsonRpcResponse :=
  omap (λ e, match e with
             | Resolve k' _ response => if decide (k' = k) then Some response else None
             | _ => None
             end) es.

(** ** A descriptor parser and a file system to run examples on *)

(** Modelled from the spec: the lines of a block ([text::parseDcfFile]). *)
Fixpoint lines (s : string) : list string :=
  match s with
  | EmptyString => [EmptyString]
  | String c s' =>
      if is_LF c then EmptyString :: lines s'
      else match lines s' with
           | l :: ls => String c l :: ls
           | [] => [String c EmptyString]
           end
  end.

(** Modelled from the spec: a line is cut at its first colon
    ([text::parseDcfFile], colon-delimited [key: value]). *)
Fixpoint split_colon (s : string) : option (string * string) :=
  match s with
  | EmptyString => None
  | String c s' =>
      if Ascii.eqb c ":" then Some (EmptyString, s')
      else match split_colon s' with
           | Some (key, value) => Some (String c key, value)
           | None => None
           end
  end.

(** Modelled from the spec: the pending key and value enter the field
    mapping ([text::parseDcfFile]); a key already present keeps its value. *)
Definition record_field (current : option (string * string))
  (fields : gmap string string) : gmap string string :=
  match current with
  | Some (key, value) =>
      match fields !! key with
      | Some _ => fields
      | None => <[key := value]> fields
      end
  | None => fields
  end.

(** Modelled from the spec: the failure [text::parseDcfFile] reports. *)
Definition parse_error : Error := mkError 71 "invalid line".

(** Modelled from the spec: one line of a block ([text::parseDcfFile],
    section 4.1). Blank lines and [#] comments are passed over, a line
    that starts in the first column must be [key: value], a line that
    starts with white space continues the value before it. *)
Definition parse_line (line : string)
  (st : gmap string string * option (string * string))
  : Error * (gmap string string * option (string * string)) :=
  let '(fields, current) := st in
  match trim_copy line, line with
  | EmptyString, _ => (Success, st)
  | _, EmptyString => (Success, st)
  | _, String c _ =>
      if Ascii.eqb c "#" then (Success, st)
      else if is_space c then
        match current with
        | Some (key, value) =>
            (Success, (fields, Some (key, value +:+ nl +:+ trim_left line)))
        | None => (parse_error, st)
        end
      else
        match split_colon line with
        | Some (key, value) =>
            match trim_right key with
            | EmptyString => (parse_error, st)
            | key' => (Success, (record_field current fields, Some (key', trim_left value)))
            end
        | None => (parse_error, st)
        end
  end.

(** Modelled from the spec: the loop of [text::parseDcfFile] over the
    lines; it stops at the first line it cannot read. *)
Fixpoint parse_lines (ls : list string)
  (st : gmap string string * option (string * string))
  : Error * gmap string string :=
  match ls with
  | [] => (Success, record_field st.2 st.1)
  | line :: ls' =>
      let '(error, st') := parse_line line st in
      if isError error then (error, st'.1) else parse_lines ls' st'
  end.

(** Modelled from the spec: [text::parseDcfFile] (core/text/DcfParser),
    section 4.1: colon-delimited [key: value] lines with folded
    continuation lines, yielding a field mapping or a failure. After a
    failure the out-parameter holds the fields recorded so far. *)
Definition parseDcfFile_model (contents : string) : Error * gmap string string :=
  parse_lines (lines contents) (∅, None).

(** The error of reading a file that is not there. *)
Definition no_such_file : Error := mkError 2 "No such file or directory".

(** A host with the given files, no project under devtools and the
    packages pane enabled. *)
Definition host_of (files : gmap string string) : Host :=
  mkHost (λ path, match files !! path with
                  | Some contents => (Success, contents)
                  | None => (no_such_file, EmptyString)
                  end)
         parseDcfFile_model
         (Success, [".GlobalEnv"; "package:base"])
         "/project"
         (λ path, bool_decide (is_Some (files !! path)))
         "project"
         false.

(** ** Vocabulary of the statements *)

(** [n] line feeds in a row. *)
Fixpoint LFs (n : nat) : string :=
  match n with
  | 0 => EmptyString
  | S n' => String LF (LFs n')
  end.

(** Two line feeds meet somewhere in [s]. *)
Fixpoint blank_line (s : string) : bool :=
  match s with
  | EmptyString => false
  | String c s' => (is_LF c && starts_with_LF s') || blank_line s'
  end.

Fixpoint ends_with_LF (s : string) : bool :=
  match s with
  | EmptyString => false
  | String c EmptyString => is_LF c
  | String _ s' => ends_with_LF s'
  end.

(** The registry a pass builds from the files the driver reports, before
    the self-entry of a package under development is added. *)
Definition scanned (host : Host) (files : list (string * FilePath))
  (r : Registry) : Registry :=
  foldl (λ r f, (add_path host f.1 f.2 r).1) r files.

(** The same with the self-entry, as [onIndexingCompleted] adds it. *)
Definition with_self_entry (host : Host) (r : Registry) : Registry :=
  if isDevtoolsLoadAllActive host then
    let extensionPath := childPath (buildTargetPath host) "inst/rstudio/connections.dcf" in
    if pathExists host extensionPath
    then (add_path host (packageInfoName host) extensionPath r).1
    else r
  else r.

(** The files reported and the continuations requested by a run of
    events, in order. *)
Definition reported (evs : list Event) : list (string * FilePath) :=
  omap (λ ev, match ev with DriverWork p f => Some (p, f) | _ => None end) evs.

Definition requested (evs : list Event) : list Continuation :=
  omap (λ ev, match ev with Request k => k | _ => None end) evs.

Definition is_finish (ev : Event) : bool :=
  match ev with DriverFinish => true | _ => false end.

(** What holds of every state the session can reach: the current
    registry pointer is valid, a running pass has its registry, and the
    command table is either not yet filled or complete. *)
Definition well_formed (s : State) : Prop :=
  is_Some (connectionsRegistry s)
  ∧ (running s = true → is_Some (deref (pRegistry_ s) s))
  ∧ (commands s = [] ∨ commands s = known_commands).

(** The driver calls back only during a pass. *)
Definition enabled (s : State) (ev : Event) : Prop :=
  match ev with
  | DriverWork _ _ | DriverFinish => running s = true
  | _ => True
  end.

(** ** Further vocabulary *)

(** No colon occurs in [s]; R package names are of this kind. *)
Fixpoint no_colon (s : string) : bool :=
  match s with
  | EmptyString => true
  | String c s' => negb (Ascii.eqb c ":") && no_colon s'
  end.

(** [s] without its line feeds. *)
Fixpoint strip_LF (s : string) : string :=
  match s with
  | EmptyString => EmptyString
  | String c s' => if is_LF c then strip_LF s' else String c (strip_LF s')
  end.

(** Concatenation of a list of strings. *)
Definition join (l : list string) : string := foldr String.append EmptyString l.

(** [s] consists of white space only. *)
Fixpoint all_space (s : string) : bool :=
  match s with
  | EmptyString => true
  | String c s' => is_space c && all_space s'
  end.

(** A console line that [onConsoleInput] takes for a package-mutating
    command. *)
Definition mutates_library (input : string) : bool :=
  existsb (starts_with (trim_copy input)) known_commands.

(** The driver protocol of section 6, followed on the pass status alone:
    a request leaves the indexer running, the driver reports files and
    the end of the walk only during a pass, and the end of the walk
    leaves the indexer idle. The result is the status after the events,
    or [None] when the driver broke the protocol. *)
Fixpoint protocol (evs : list Event) (is_running : bool) : option bool :=
  match evs with
  | [] => Some is_running
  | Request _ :: evs' => protocol evs' true
  | DriverWork _ _ :: evs' => if is_running then protocol evs' true else None
  | DriverFinish :: evs' => if is_running then protocol evs' false else None
  | ConsoleInput _ :: evs' => protocol evs' is_running
  end.

(** A call of a continuation that reports success and carries a result. *)
Definition reports_success (eff : Effect) : Prop :=
  match eff with
  | Resolve _ error response => error = Success ∧ is_Some (result response)
  | _ => True
  end.

(** The ends of walk among the events. *)
Definition finishes (evs : list Event) : nat :=
  length (filter (λ ev, is_finish ev = true) evs).

(** A text put together from blocks: the first block, then for each
    further block a run of line feeds and the block. *)
Fixpoint assemble (b : string) (rest : list (nat * string)) : string :=
  match rest with
  | [] => b
  | (n, b') :: rest' => b +:+ LFs n +:+ assemble b' rest'
  end.

(** The blocks and the runs between them are what they look like: every
    run has two or more line feeds, no block holds two line feeds in a
    row, a block followed by a run does not end in a line feed, a block
    preceded by a run is not empty and does not begin with one, and a
    text of one block is not empty. The first block of several may be
    empty, and the last may end in one line feed. *)
Fixpoint separated (b : string) (rest : list (nat * string)) : Prop :=
  blank_line b = false
  ∧ match rest with
    | [] => b ≠ EmptyString
    | (n, b') :: rest' =>
        ends_with_LF b = false ∧ (2 ≤ n)%nat
        ∧ b' ≠ EmptyString ∧ starts_with_LF b' = false
        ∧ separated b' rest'
    end.

(** * Properties *)

(** ** Splitting into blocks *)

Lemma tokens_eq s :
  tokens s =
  match regex_search s with
  | Some (before, rest) => before :: tokens rest
  | None => if decide (s = EmptyString) then [] else [s]
  end.
Proof.
  rewrite tokens_equation_1.
  destruct (inspect (regex_search s)) as [[[b r]|] e]; simpl; by rewrite e.
Qed.

(** ** The registry as a map *)

Lemma adds_snoc calls c (r : Registry) :
  adds (calls ++ [c]) r = add c.1 c.2 (adds calls r).
Proof. unfold adds. by rewrite foldl_snoc. Qed.

Lemma dom_add package spec (r : Registry) :
  dom (add package spec r) = {[constructKey package (getName spec)]} ∪ dom r.
Proof. unfold add. by rewrite dom_insert_L. Qed.

Lemma dom_adds calls (r : Registry) :
  dom (adds calls r) = list_to_set (call_key <$> calls) ∪ dom r.
Proof.
  revert r. induction calls as [|c calls IH]; intros r.
  - set_solver.
  - change (adds (c :: calls) r) with (adds calls (add c.1 c.2 r)).
    rewrite IH, dom_add. unfold call_key at 2. set_solver.
Qed.

Lemma size_remove_dups (l : list string) :
  base.size (list_to_set l : gset string) = length (remove_dups l).
Proof.
  rewrite <- (size_list_to_set (C := gset string) (remove_dups l))
    by apply NoDup_remove_dups.
  f_equal. apply set_eq. intros x.
  by rewrite !elem_of_list_to_set, elem_of_remove_dups.
Qed.

(** C8: on a fresh registry, [size()] after any sequence of
    [add(pkg, entry)] calls is the number of distinct [package::name] keys
    the sequence used; one more [add] leaves its entry under its key
    (last writer wins), and changes [size()] only when the key is new. *)
Theorem size_counts_distinct_keys (calls : list (string * ConnectionsIndexEntry)) :
  size (adds calls ∅) = length (remove_dups (call_key <$> calls))
  ∧ ∀ c : string * ConnectionsIndexEntry,
      adds (calls ++ [c]) ∅ !! call_key c = Some c.2
      ∧ size (adds (calls ++ [c]) ∅) =
          if decide (call_key c ∈ call_key <$> calls)
          then size (adds calls ∅)
          else S (size (adds calls ∅)).
Proof.
  split.
  - unfold size. rewrite <- size_dom, dom_adds, dom_empty_L, (right_id_L ∅ (∪)).
    apply size_remove_dups.
  - intros c. rewrite adds_snoc. unfold add, size. fold (call_key c). split.
    + apply lookup_insert_eq.
    + assert (call_key c ∈ call_key <$> calls ↔ is_Some (adds calls ∅ !! call_key c)) as Hin.
      { rewrite <- elem_of_dom, dom_adds, dom_empty_L. set_solver. }
      case_decide as Hk.
      * apply Hin in Hk. by rewrite map_size_insert_Some.
      * rewrite map_size_insert_None; [done|].
        apply eq_None_not_Some. by rewrite <- Hin.
Qed.

(** C10: [get] on a key the registry does not hold changes the registry:
    a default entry, with empty name and empty package, is inserted under
    that key and returned, so [contains] turns true and [size()] grows by
    one. *)
Theorem get_missing_inserts_default (package name : string) (r : Registry) :
  contains package name r = false →
  let '(e, r') := get package name r in
  getName e = "" ∧ getPackage e = ""
  ∧ r' = <[constructKey package name := defaultEntry]> r
  ∧ r' ≠ r
  ∧ contains package name r' = true
  ∧ size r' = S (size r).
Proof.
  unfold contains, get, subscript. intros Hc.
  apply bool_decide_eq_false in Hc. apply eq_None_not_Some in Hc.
  rewrite Hc. repeat split.
  - intros Heq. rewrite <- Heq, lookup_insert_eq in Hc. done.
  - apply bool_decide_eq_true. rewrite lookup_insert_eq. eauto.
  - unfold size. by rewrite map_size_insert_None.
Qed.

Lemma get_missing_inserts_default_witness :
  let '(e, r') := get "odbc" "pg" ∅ in
  getName e = "" ∧ getPackage e = ""
  ∧ r' = <[constructKey "odbc" "pg" := defaultEntry]> ∅
  ∧ r' ≠ ∅
  ∧ contains "odbc" "pg" r' = true
  ∧ size r' = S (size (∅ : Registry)).
Proof. apply (get_missing_inserts_default "odbc" "pg" ∅). reflexivity. Defined.

Lemma foldl_toJson_lookup (r : Registry) (keys : list string) (acc : Object) key :
  foldl (λ (object : Object) key,
           match r !! key with
           | Some e => <[key := JObject (Entry.toJson e)]> object
           | None => object
           end) acc keys !! key =
  match r !! key with
  | Some e => if decide (key ∈ keys) then Some (JObject (Entry.toJson e)) else acc !! key
  | None => acc !! key
  end.
Proof.
  revert acc. induction keys as [|k keys IH]; intros acc; cbn [foldl].
  - destruct (r !! key); [|done]. by rewrite decide_False by set_solver.
  - rewrite IH. destruct (r !! key) as [e|] eqn:Hkey.
    + destruct (decide (key ∈ keys)) as [Hin|Hin].
      * by rewrite decide_True by set_solver.
      * destruct (decide (k = key)) as [->|Hne].
        -- rewrite Hkey, lookup_insert_eq. by rewrite decide_True by set_solver.
        -- rewrite decide_False by set_solver.
           destruct (r !! k); [by rewrite lookup_insert_ne|done].
    + destruct (decide (k = key)) as [->|Hne]; [by rewrite Hkey|].
      destruct (r !! k); [by rewrite lookup_insert_ne|done].
Qed.

Lemma toJson_lookup (r : Registry) key :
  toJson r !! key = (λ e, JObject (Entry.toJson e)) <$> r !! key.
Proof.
  unfold toJson. rewrite foldl_toJson_lookup.
  destruct (r !! key) as [e|] eqn:Hkey; simpl; [|done].
  rewrite decide_True; [done|].
  apply list_elem_of_fmap. exists (key, e). split; [done|].
  by apply elem_of_map_to_list.
Qed.

Lemma toJson_fmap (r : Registry) :
  toJson r = (λ e, JObject (Entry.toJson e)) <$> r.
Proof. apply map_eq. intros key. by rewrite toJson_lookup, lookup_fmap. Qed.

(** ** Blocks of a descriptor file *)

Lemma skip_LF_id s : starts_with_LF s = false → skip_LF s = s.
Proof. destruct s as [|c s]; simpl; [done|]. by intros ->. Qed.

Lemma skip_LF_LFs n s : starts_with_LF s = false → skip_LF (LFs n +:+ s) = s.
Proof.
  intros Hs. induction n as [|n IH]; simpl; [by apply skip_LF_id|done].
Qed.

Lemma regex_search_None s : blank_line s = false → regex_search s = None.
Proof.
  induction s as [|c s IH]; simpl; [done|].
  intros [-> Hs]%orb_false_elim. by rewrite IH.
Qed.

Lemma starts_with_LF_app b s :
  b ≠ EmptyString → starts_with_LF (b +:+ s) = starts_with_LF b.
Proof. by destruct b. Qed.

Lemma regex_search_separator b n rest :
  blank_line b = false → ends_with_LF b = false → (2 ≤ n)%nat →
  starts_with_LF rest = false →
  regex_search (b +:+ LFs n +:+ rest) = Some (b, rest).
Proof.
  intros Hb He Hn Hrest. induction b as [|c b IH].
  - destruct n as [|[|n]]; [lia..|]. simpl.
    by rewrite skip_LF_LFs.
  - simpl in Hb. apply orb_false_elim in Hb as [Hc Hb].
    change (String c b +:+ LFs n +:+ rest) with (String c (b +:+ LFs n +:+ rest)).
    cbn [regex_search].
    destruct b as [|d b].
    + simpl in He. rewrite He. simpl. rewrite IH; done.
    + rewrite starts_with_LF_app, Hc by done.
      rewrite IH; [done..|]. exact He.
Qed.

(** A text without a separator is one block, unless it is empty. *)
Lemma tokens_single b :
  blank_line b = false → b ≠ EmptyString → tokens b = [b].
Proof.
  intros Hb Hne. rewrite tokens_eq, regex_search_None by done.
  by rewrite decide_False.
Qed.

(** A run of two or more line feeds ends the block before it. *)
Lemma tokens_separator b n rest :
  blank_line b = false → ends_with_LF b = false → (2 ≤ n)%nat →
  starts_with_LF rest = false →
  tokens (b +:+ LFs n +:+ rest) = b :: tokens rest.
Proof.
  intros. rewrite tokens_eq. by rewrite regex_search_separator.
Qed.

Lemma add_block_fst host pkgName (acc : Registry * list Effect) block :
  (add_block host pkgName acc block).1 =
  add_fields pkgName (parseDcfFile host block).2 acc.1.
Proof.
  unfold add_block, parseConnectionsDcf.
  by destruct (parseDcfFile host block).
Qed.

Lemma add_block_snd host pkgName (acc : Registry * list Effect) block :
  (add_block host pkgName acc block).2 =
  acc.2 ++ (if isError (parseDcfFile host block).1
            then [LOG_ERROR (parseDcfFile host block).1] else []).
Proof.
  unfold add_block, parseConnectionsDcf.
  by destruct (parseDcfFile host block).
Qed.

Lemma foldl_add_block_fst host pkgName blocks (acc : Registry * list Effect) :
  (foldl (add_block host pkgName) acc blocks).1 =
  foldl (λ r block, add_fields pkgName (parseDcfFile host block).2 r) acc.1 blocks.
Proof.
  revert acc. induction blocks as [|b blocks IH]; intros acc; simpl; [done|].
  by rewrite IH, add_block_fst.
Qed.

Lemma add_path_read_ok host pkgName path contents (r : Registry) :
  readStringFromFile host path = (Success, contents) →
  add_path host pkgName path r = foldl (add_block host pkgName) (r, []) (tokens contents).
Proof. unfold add_path. by intros ->. Qed.

Lemma add_fields_key pkgName fields (r : Registry) :
  add_fields pkgName fields r =
  <[constructKey pkgName (default "" (fields !! "Name")) :=
      mkEntry (default "" (fields !! "Name")) pkgName]> r.
Proof.
  unfold add_fields, subscript, add. by destruct (fields !! "Name").
Qed.

Lemma append_inj_r (p a b : string) : p +:+ a = p +:+ b → a = b.
Proof. induction p as [|c p IH]; simpl; [done|]. intros [= H]. auto. Qed.

Lemma constructKey_inj_name package n1 n2 :
  constructKey package n1 = constructKey package n2 → n1 = n2.
Proof. unfold constructKey. intros H%append_inj_r. by apply append_inj_r in H. Qed.

(** C6: a block whose parsed fields have no [Name] still adds exactly one
    entry, named by the empty string, under the key [pkgName::]; no other
    key changes, and nothing is logged unless the parser itself failed. *)
Theorem missing_Name_adds_empty_named_entry host pkgName block
  (acc : Registry * list Effect) :
  (parseDcfFile host block).2 !! "Name" = None →
  let acc' := add_block host pkgName acc block in
  acc'.1 = <[constructKey pkgName "" := mkEntry "" pkgName]> acc.1
  ∧ acc'.1 !! (pkgName +:+ "::") = Some (mkEntry "" pkgName)
  ∧ contains pkgName "" acc'.1 = true
  ∧ (∀ key, key ≠ pkgName +:+ "::" → acc'.1 !! key = acc.1 !! key)
  ∧ (isError (parseDcfFile host block).1 = false → acc'.2 = acc.2).
Proof.
  intros Hname acc'. unfold acc'.
  rewrite add_block_fst, add_block_snd, add_fields_key, Hname. simpl.
  change (constructKey pkgName "") with (pkgName +:+ "::").
  split; [done|]. split; [apply lookup_insert_eq|]. split.
  - unfold contains. apply bool_decide_eq_true.
    change (constructKey pkgName "") with (pkgName +:+ "::").
    rewrite lookup_insert_eq. eauto.
  - split.
    + intros key Hkey. by rewrite lookup_insert_ne.
    + intros ->. by rewrite (right_id_L [] (++)).
Qed.

Lemma missing_Name_adds_empty_named_entry_witness :
  let acc' := add_block (host_of ∅) "odbc" (∅, []) "Type: driver" in
  acc'.1 = <[constructKey "odbc" "" := mkEntry "" "odbc"]> ∅
  ∧ acc'.1 !! "odbc::" = Some (mkEntry "" "odbc")
  ∧ contains "odbc" "" acc'.1 = true
  ∧ (∀ key, key ≠ "odbc::" → acc'.1 !! key = (∅ : Registry) !! key)
  ∧ (isError (parseDcfFile (host_of ∅) "Type: driver").1 = false → acc'.2 = []).
Proof.
  apply (missing_Name_adds_empty_named_entry (host_of ∅) "odbc" "Type: driver" (∅, [])).
  reflexivity.
Defined.

(** C7: [toJson()] has one member per registry key, the composite key
    [package::name] under which [add] stored the entry, and its value is
    the object with the entry's [name] and [package]. For a parser that
    reads the two blocks of the example as their [Name] fields, the text
    "Name: pg\n\nName: sqlite\n" added for package odbc serialises to the
    two members [odbc::pg] and [odbc::sqlite]. *)
Theorem toJson_wire_format :
  (∀ (r : Registry) key,
     toJson r !! key =
     (λ e, JObject {[ "name" := JString (getName e);
                      "package" := JString (getPackage e) ]}) <$> r !! key)
  ∧ (∀ package spec (r : Registry),
       toJson (add package spec r) !! (package +:+ "::" +:+ getName spec) =
       Some (JObject {[ "name" := JString (getName spec);
                        "package" := JString (getPackage spec) ]}))
  ∧ (∀ host path,
       readStringFromFile host path =
         (Success, "Name: pg" +:+ nl +:+ nl +:+ "Name: sqlite" +:+ nl) →
       parseDcfFile host "Name: pg" = (Success, {[ "Name" := "pg" ]}) →
       parseDcfFile host ("Name: sqlite" +:+ nl) = (Success, {[ "Name" := "sqlite" ]}) →
       toJson (add_path host "odbc" path ∅).1 =
       {[ "odbc::pg" := JObject {[ "name" := JString "pg";
                                   "package" := JString "odbc" ]};
          "odbc::sqlite" := JObject {[ "name" := JString "sqlite";
                                       "package" := JString "odbc" ]} ]}).
Proof.
  assert (∀ e, Entry.toJson e =
               {[ "name" := JString (getName e);
                  "package" := JString (getPackage e) ]}) as Hentry.
  { intros e. unfold Entry.toJson, getName, getPackage.
    apply insert_insert_ne. done. }
  split; [|split].
  - intros r key. rewrite toJson_lookup.
    destruct (r !! key) as [e|]; simpl; [|done]. by rewrite Hentry.
  - intros package spec r. rewrite toJson_lookup. unfold add, constructKey.
    rewrite lookup_insert_eq. simpl. by rewrite Hentry.
  - intros host path Hread Hpg Hsqlite.
    rewrite (add_path_read_ok _ _ _ _ _ Hread).
    replace (tokens ("Name: pg" +:+ nl +:+ nl +:+ "Name: sqlite" +:+ nl))
      with ["Name: pg"; "Name: sqlite" +:+ nl] by (by vm_compute).
    rewrite foldl_add_block_fst. cbn [foldl fst].
    rewrite Hpg, Hsqlite. by vm_compute.
Qed.

Lemma toJson_wire_format_witness :
  toJson (add_path
            (host_of {[ "connections.dcf" :=
                          "Name: pg" +:+ nl +:+ nl +:+ "Name: sqlite" +:+ nl ]})
            "odbc" "connections.dcf" ∅).1 =
  {[ "odbc::pg" := JObject {[ "name" := JString "pg";
                              "package" := JString "odbc" ]};
     "odbc::sqlite" := JObject {[ "name" := JString "sqlite";
                                  "package" := JString "odbc" ]} ]}.
Proof.
  apply (proj2 (proj2 toJson_wire_format)); reflexivity.
Defined.

(** ** Errors while reading a descriptor file *)

Lemma foldl_add_block_snd host pkgName blocks (acc : Registry * list Effect) :
  (foldl (add_block host pkgName) acc blocks).2 =
  acc.2 ++ (LOG_ERROR <$> filter (λ e, isError e = true)
                            ((λ block, (parseDcfFile host block).1) <$> blocks)).
Proof.
  revert acc. induction blocks as [|b blocks IH]; intros acc; simpl.
  - by rewrite (right_id_L [] (++)).
  - rewrite IH, add_block_snd, filter_cons.
    destruct (isError (parseDcfFile host b).1) eqn:E.
    + rewrite decide_True by done. by rewrite <- (assoc_L (++)).
    + rewrite decide_False by (by intros ?). by rewrite (right_id_L [] (++)).
Qed.

Lemma add_path_eq host pkgName path (r : Registry) :
  add_path host pkgName path r =
  let '(error, contents) := readStringFromFile host path in
  if isError error then (r, [LOG_ERROR error])
  else (foldl (λ r block, add_fields pkgName (parseDcfFile host block).2 r)
              r (tokens contents),
        LOG_ERROR <$> filter (λ e, isError e = true)
                        ((λ block, (parseDcfFile host block).1) <$> tokens contents)).
Proof.
  unfold add_path.
  destruct (readStringFromFile host path) as [error contents].
  destruct (isError error); [done|].
  rewrite (surjective_pairing (foldl _ _ _)).
  by rewrite foldl_add_block_fst, foldl_add_block_snd.
Qed.

Lemma add_path_logged host pkgName path (r : Registry) :
  ∃ errors, (add_path host pkgName path r).2 = LOG_ERROR <$> errors.
Proof.
  rewrite add_path_eq.
  destruct (readStringFromFile host path) as [error contents].
  destruct (isError error); simpl; [by exists [error]|eauto].
Qed.

Lemma onWork_is_Some host pkgName path s :
  is_Some (deref (pRegistry_ s) s) → is_Some (onWork host pkgName path s).
Proof.
  intros [r Hr]. unfold onWork, pRegistry_add, deref in *.
  destruct (pRegistry_ s) as [p|]; simpl in *; [|done].
  rewrite Hr. simpl. destruct (add_path host pkgName path r). eauto.
Qed.

(** C4, where the claim fails: a block that the parser rejects is logged
    and is still added, here as the entry [pkg::] with an empty name. *)
Lemma parse_error_block_is_not_skipped :
  let host := host_of {[ "connections.dcf" := "no colon here" ]} in
  tokens "no colon here" = ["no colon here"]
  ∧ isError (parseDcfFile host "no colon here").1 = true
  ∧ add_path host "pkg" "connections.dcf" ∅ =
      ({[ "pkg::" := mkEntry "" "pkg" ]}, [LOG_ERROR parse_error])
  ∧ (add_path host "pkg" "connections.dcf" ∅).1 ≠ ∅
  ∧ size (add_path host "pkg" "connections.dcf" ∅).1 = 1.
Proof.
  cbv zeta. split; [by vm_compute|]. split; [by vm_compute|].
  assert (add_path (host_of {[ "connections.dcf" := "no colon here" ]})
            "pkg" "connections.dcf" ∅ =
          ({[ "pkg::" := mkEntry "" "pkg" ]}, [LOG_ERROR parse_error])) as ->
    by (by vm_compute).
  split; [done|]. split; [|done].
  simpl. apply insert_non_empty.
Qed.

(** C4, as the code has it: a read error is logged and the file adds
    nothing; otherwise every block of the file is added, in order, from
    the fields the parser left, whether or not the parser failed on it,
    and the log receives the parse errors in block order. A block the
    parser failed on therefore leaves an entry behind. In a running pass
    [onWork] always completes, so no error stops the pass. *)
Theorem add_path_logs_and_continues host pkgName path :
  (∀ r : Registry,
     add_path host pkgName path r =
     let '(error, contents) := readStringFromFile host path in
     if isError error then (r, [LOG_ERROR error])
     else (foldl (λ r block, add_fields pkgName (parseDcfFile host block).2 r)
                 r (tokens contents),
           LOG_ERROR <$> filter (λ e, isError e = true)
                           ((λ block, (parseDcfFile host block).1) <$> tokens contents)))
  ∧ (∀ block (acc : Registry * list Effect),
       isError (parseDcfFile host block).1 = true →
       let acc' := add_block host pkgName acc block in
       let name := default "" ((parseDcfFile host block).2 !! "Name") in
       acc'.2 = acc.2 ++ [LOG_ERROR (parseDcfFile host block).1]
       ∧ acc'.1 !! constructKey pkgName name = Some (mkEntry name pkgName))
  ∧ (∀ s, is_Some (deref (pRegistry_ s) s) →
          is_Some (onWork host pkgName path s)).
Proof.
  split; [|split].
  - intros r. apply add_path_eq.
  - intros block acc Herr acc' name. unfold acc', name.
    rewrite add_block_fst, add_block_snd, Herr, add_fields_key.
    split; [done|]. apply lookup_insert_eq.
  - intros s. apply onWork_is_Some.
Qed.

Lemma add_path_logs_and_continues_witness :
  let host := host_of {[ "connections.dcf" := "no colon here" ]} in
  let acc' := add_block host "pkg" (∅, []) "no colon here" in
  acc'.2 = [LOG_ERROR (parseDcfFile host "no colon here").1]
  ∧ acc'.1 !! "pkg::" = Some (mkEntry "" "pkg")
  ∧ is_Some (onWork host "pkg" "connections.dcf" (start initial)).
Proof.
  intros host acc'.
  destruct (add_path_logs_and_continues host "pkg" "connections.dcf")
    as (_ & Hblock & Hwork).
  destruct (Hblock "no colon here" (∅, [])) as [Hlog Hentry]; [reflexivity|].
  split; [exact Hlog|]. split; [exact Hentry|].
  apply Hwork. exists ∅. reflexivity.
Defined.

(** ** The indexer during and after a pass *)

Lemma run_app host evs1 evs2 s :
  run host (evs1 ++ evs2) s = run host evs1 s ≫= run host evs2.
Proof.
  revert s. induction evs1 as [|ev evs1 IH]; intros s; simpl; [done|].
  destruct (step host s ev) as [s'|]; simpl; [apply IH|done].
Qed.

Lemma effects_scan_commands trimmed cmds s :
  ∃ scheduled,
    scan_commands trimmed cmds s = emit scheduled s
    ∧ scheduled = (if existsb (starts_with trimmed) cmds
                   then [scheduleDelayedWork 1 indexLibraryPathsWork true] else []).
Proof.
  induction cmds as [|c cmds IH]; simpl.
  - exists []. split; [|done]. destruct s. unfold emit. simpl.
    by rewrite (right_id_L [] (++)).
  - destruct (starts_with trimmed c); simpl; [eauto|]. exact IH.
Qed.

Lemma resolutions_app k es1 es2 :
  resolutions k (es1 ++ es2) = resolutions k es1 ++ resolutions k es2.
Proof. unfold resolutions. apply omap_app. Qed.

Lemma resolutions_LOG_ERROR k (errors : list Error) :
  resolutions k (LOG_ERROR <$> errors) = [].
Proof. induction errors as [|e errors IH]; [done|]. exact IH. Qed.


Lemma scanned_app host files1 files2 (r : Registry) :
  scanned host (files1 ++ files2) r = scanned host files2 (scanned host files1 r).
Proof. unfold scanned. apply foldl_app. Qed.

Lemma reported_cons ev evs : reported (ev :: evs) = reported [ev] ++ reported evs.
Proof. by destruct ev. Qed.

Lemma requested_cons ev evs : requested (ev :: evs) = requested [ev] ++ requested evs.
Proof. by destruct ev as [[k|]| | |]. Qed.

(** One event other than the end of the walk, while a pass is running:
    the in-progress registry is updated in place, nothing is resolved and
    no pointer moves. *)
Lemma step_during_pass host s ev p (R : Registry) :
  is_finish ev = false →
  running s = true → pRegistry_ s = Some p → heap s !! p = Some R →
  ∃ s' out,
    step host s ev = Some s'
    ∧ running s' = true ∧ pRegistry_ s' = Some p
    ∧ s_pCurrentConnectionsRegistry s' = s_pCurrentConnectionsRegistry s
    ∧ heap s' = <[p := scanned host (reported [ev]) R]> (heap s)
    ∧ continuations_ s' = continuations_ s ++ requested [ev]
    ∧ effects s' = effects s ++ out
    ∧ ∀ k, resolutions k out = [].
Proof.
  intros Hev Hrun Hp HR.
  destruct ev as [[k|]|pkgName path| |input]; simpl in Hev; [| | |done|].
  - exists (addContinuation k s), []. simpl.
    unfold indexLibraryPathsWithContinuation.
    replace (running (addContinuation k s)) with true by done. simpl.
    repeat split; try done.
    + by rewrite list_insert_id.
    + by rewrite (right_id_L [] (++)).
  - exists s, []. simpl. unfold indexLibraryPathsWithContinuation.
    rewrite Hrun. simpl.
    repeat split; try done; try by rewrite (right_id_L [] (++)).
    by rewrite list_insert_id.
  - simpl. unfold driver_work, onWork, pRegistry_add. rewrite Hrun, Hp. simpl.
    rewrite HR. simpl.
    destruct (add_path_logged host pkgName path R) as [errors Herrors].
    destruct (add_path host pkgName path R) as [R' logged] eqn:Hadd.
    simpl in Herrors. subst logged.
    eexists _, _. split; [done|]. simpl.
    unfold scanned. simpl.
    repeat split; try done.
    + by rewrite (right_id_L [] (++)).
    + intros k. apply resolutions_LOG_ERROR.
  - simpl. unfold onConsoleInput.
    destruct (disablePackages host).
    { exists s, []. repeat split; try done; try by rewrite (right_id_L [] (++)).
      by rewrite list_insert_id. }
    match goal with |- context [scan_commands ?t ?c ?s0] =>
      destruct (effects_scan_commands t c s0) as (scheduled & -> & Hsched)
    end.
    eexists _, scheduled. split; [done|].
    destruct (commands s); simpl; (repeat split; try done;
      [by rewrite list_insert_id | by rewrite (right_id_L [] (++))
      | intros k; subst scheduled; by destruct (existsb _ _)]).
Qed.

Lemma run_during_pass host evs : ∀ s p (R : Registry),
  Forall (λ ev, is_finish ev = false) evs →
  running s = true → pRegistry_ s = Some p → heap s !! p = Some R →
  ∃ s' out,
    run host evs s = Some s'
    ∧ running s' = true ∧ pRegistry_ s' = Some p
    ∧ s_pCurrentConnectionsRegistry s' = s_pCurrentConnectionsRegistry s
    ∧ heap s' = <[p := scanned host (reported evs) R]> (heap s)
    ∧ continuations_ s' = continuations_ s ++ requested evs
    ∧ effects s' = effects s ++ out
    ∧ ∀ k, resolutions k out = [].
Proof.
  induction evs as [|ev evs IH]; intros s p R Hevs Hrun Hp HR.
  - exists s, []. simpl. repeat split; try done.
    + by rewrite list_insert_id.
    + by rewrite (right_id_L [] (++)).
    + by rewrite (right_id_L [] (++)).
  - apply Forall_cons in Hevs as [Hev Hevs].
    destruct (step_during_pass host s ev p R Hev Hrun Hp HR)
      as (s1 & out1 & Hstep & Hrun1 & Hp1 & Hc1 & Hh1 & Hk1 & He1 & Hr1).
    assert (heap s1 !! p = Some (scanned host (reported [ev]) R)) as HR1.
    { rewrite Hh1. apply list_lookup_insert_eq. by eapply lookup_lt_Some. }
    destruct (IH s1 p _ Hevs Hrun1 Hp1 HR1)
      as (s2 & out2 & Hrun2 & Hrun2' & Hp2 & Hc2 & Hh2 & Hk2 & He2 & Hr2).
    exists s2, (out1 ++ out2).
    split; [cbn [run]; by rewrite Hstep|].
    split; [done|]. split; [done|].
    split; [congruence|]. split.
    { rewrite Hh2, Hh1, list_insert_insert_eq.
      by rewrite (reported_cons ev evs), scanned_app. }
    split.
    { by rewrite Hk2, Hk1, <- (assoc_L (++)), (requested_cons ev evs). }
    split.
    { by rewrite He2, He1, <- (assoc_L (++)). }
    intros k. by rewrite resolutions_app, Hr1, Hr2.
Qed.

Lemma emit_nil s : emit [] s = s.
Proof. destruct s. unfold emit. simpl. by rewrite (right_id_L [] (++)). Qed.

Lemma emit_emit es1 es2 s : emit es2 (emit es1 s) = emit (es1 ++ es2) s.
Proof. unfold emit. simpl. by rewrite (assoc_L (++)). Qed.

Lemma foldl_emit (f : Continuation → Effect) ks s :
  foldl (λ s k, emit [f k] s) s ks = emit (f <$> ks) s.
Proof.
  revert s. induction ks as [|k ks IH]; intros s; simpl.
  - by rewrite emit_nil.
  - by rewrite IH, emit_emit.
Qed.

Lemma resolve_all_eq registryJson s :
  resolve_all registryJson s =
  emit ((λ k, Resolve k Success (mkResponse (Some registryJson))) <$> continuations_ s) s.
Proof. unfold resolve_all. apply (foldl_emit (λ k, Resolve k Success _)). Qed.

(** The end of the walk: the self-entry is added to the in-progress
    registry, that registry becomes the current one, and then every queued
    continuation is called with its JSON, front to back. The queue itself
    is left as it was. *)
Lemma driver_finish_spec host s p (R : Registry) :
  running s = true → pRegistry_ s = Some p → heap s !! p = Some R →
  ∃ s' errors,
    driver_finish host s = Some s'
    ∧ running s' = false ∧ pRegistry_ s' = Some p
    ∧ s_pCurrentConnectionsRegistry s' = Some p
    ∧ heap s' = <[p := with_self_entry host R]> (heap s)
    ∧ continuations_ s' = continuations_ s
    ∧ effects s' =
        effects s ++ (LOG_ERROR <$> errors)
        ++ ((λ k, Resolve k Success (mkResponse (Some (toJson (with_self_entry host R)))))
              <$> continuations_ s).
Proof.
  intros Hrun Hp HR.
  assert (p < length (heap s)) as Hlt by by eapply lookup_lt_Some.
  unfold driver_finish, onIndexingCompleted, with_self_entry. rewrite Hrun.
  destruct (isDevtoolsLoadAllActive host).
  - cbv zeta.
    destruct (pathExists host (childPath (buildTargetPath host) "inst/rstudio/connections.dcf")).
    + unfold pRegistry_add. rewrite Hp. simpl. rewrite HR. simpl.
      destruct (add_path_logged host (packageInfoName host)
                  (childPath (buildTargetPath host) "inst/rstudio/connections.dcf") R)
        as [errors Herrors].
      destruct (add_path host (packageInfoName host)
                  (childPath (buildTargetPath host) "inst/rstudio/connections.dcf") R)
        as [R' logged].
      simpl in Herrors. subst logged. simpl.
      unfold connectionsRegistry, deref. simpl. rewrite Hp. simpl.
      rewrite list_lookup_insert_eq by done. simpl.
      rewrite resolve_all_eq. simpl.
      eexists _, errors. split; [done|]. simpl.
      repeat split; try done. by rewrite <- (assoc_L (++)).
    + simpl. unfold connectionsRegistry, deref. simpl. rewrite Hp. simpl.
      rewrite HR. simpl. rewrite resolve_all_eq. simpl.
      eexists _, []. split; [done|]. simpl.
      repeat split; try done. by rewrite list_insert_id.
  - simpl. unfold connectionsRegistry, deref. simpl. rewrite Hp. simpl.
    rewrite HR. simpl. rewrite resolve_all_eq. simpl.
    eexists _, []. split; [done|]. simpl.
    repeat split; try done. by rewrite list_insert_id.
Qed.

Lemma request_when_idle kopt s :
  running s = false →
  let s0 := indexLibraryPathsWithContinuation kopt s in
  running s0 = true
  ∧ pRegistry_ s0 = Some (length (heap s))
  ∧ heap s0 = heap s ++ [∅]
  ∧ s_pCurrentConnectionsRegistry s0 = s_pCurrentConnectionsRegistry s
  ∧ continuations_ s0 = continuations_ s ++ requested [Request kopt]
  ∧ effects s0 = effects s.
Proof.
  intros Hrun. unfold indexLibraryPathsWithContinuation, start, running in *.
  destruct kopt as [k|]; simpl; rewrite Hrun; simpl; repeat split; try done.
  by rewrite (right_id_L [] (++)).
Qed.

(** C1: while a pass is running, [start()] does nothing and a request
    with a continuation only appends it to the queue: no registry is
    allocated and the indexer keeps the registry of the pass in flight.
    Whatever the driver reports and whoever else asks before the walk
    ends, nothing is resolved meanwhile, and at the end of that same pass
    the continuation is called with [Success()] and the JSON of the
    registry that pass built, which is then the current one. *)
Theorem request_while_running_joins_pass host s p (R : Registry) k evs :
  running s = true → pRegistry_ s = Some p → heap s !! p = Some R →
  Forall (λ ev, is_finish ev = false) evs →
  start s = s
  ∧ indexLibraryPathsWithContinuation (Some k) s = addContinuation k s
  ∧ ∃ s1 s2 errors,
      let Rfinal := with_self_entry host (scanned host (reported evs) R) in
      run host (Request (Some k) :: evs) s = Some s1
      ∧ running s1 = true
      ∧ pRegistry_ s1 = Some p
      ∧ length (heap s1) = length (heap s)
      ∧ (∀ k', resolutions k' (effects s1) = resolutions k' (effects s))
      ∧ step host s1 DriverFinish = Some s2
      ∧ running s2 = false
      ∧ s_pCurrentConnectionsRegistry s2 = Some p
      ∧ connectionsRegistry s2 = Some Rfinal
      ∧ effects s2 =
          effects s1 ++ (LOG_ERROR <$> errors)
          ++ ((λ k', Resolve k' Success (mkResponse (Some (toJson Rfinal))))
                <$> (continuations_ s ++ k :: requested evs)).
Proof.
  intros Hrun Hp HR Hevs.
  split; [unfold start; by rewrite Hrun|].
  split.
  { unfold indexLibraryPathsWithContinuation.
    by replace (running (addContinuation k s)) with true. }
  destruct (run_during_pass host (Request (Some k) :: evs) s p R)
    as (s1 & out & Hrun1 & Hr1 & Hp1 & Hc1 & Hh1 & Hk1 & He1 & Hout);
    [by apply Forall_cons|done..|].
  assert (reported (Request (Some k) :: evs) = reported evs) as Hrep by done.
  assert (requested (Request (Some k) :: evs) = k :: requested evs) as Hreq by done.
  rewrite Hrep in Hh1. rewrite Hreq in Hk1.
  assert (p < length (heap s)) as Hlt by by eapply lookup_lt_Some.
  assert (heap s1 !! p = Some (scanned host (reported evs) R)) as HR1.
  { rewrite Hh1. by apply list_lookup_insert_eq. }
  destruct (driver_finish_spec host s1 p _ Hr1 Hp1 HR1)
    as (s2 & errors & Hfin & Hr2 & Hp2 & Hc2 & Hh2 & Hk2 & He2).
  exists s1, s2, errors. cbv zeta.
  split; [done|]. split; [done|]. split; [done|].
  split; [by rewrite Hh1, length_insert|].
  split. { intros k'. by rewrite He1, resolutions_app, Hout, (right_id_L [] (++)). }
  split; [done|]. split; [done|]. split; [done|].
  split.
  { unfold connectionsRegistry, deref. rewrite Hc2. simpl. rewrite Hh2.
    apply list_lookup_insert_eq. by rewrite Hh1, length_insert. }
  by rewrite He2, Hk1.
Qed.

Lemma request_while_running_joins_pass_witness :
  let host := host_of {[ "connections.dcf" := "Name: pg" ]} in
  let s := start initial in
  let evs := [DriverWork "odbc" "connections.dcf"; Request None] in
  start s = s
  ∧ indexLibraryPathsWithContinuation (Some 7) s = addContinuation 7 s
  ∧ ∃ s1 s2 errors,
      let Rfinal := with_self_entry host (scanned host (reported evs) ∅) in
      run host (Request (Some 7) :: evs) s = Some s1
      ∧ running s1 = true
      ∧ pRegistry_ s1 = Some 1
      ∧ length (heap s1) = length (heap s)
      ∧ (∀ k', resolutions k' (effects s1) = resolutions k' (effects s))
      ∧ step host s1 DriverFinish = Some s2
      ∧ running s2 = false
      ∧ s_pCurrentConnectionsRegistry s2 = Some 1
      ∧ connectionsRegistry s2 = Some Rfinal
      ∧ effects s2 =
          effects s1 ++ (LOG_ERROR <$> errors)
          ++ ((λ k', Resolve k' Success (mkResponse (Some (toJson Rfinal))))
                <$> (continuations_ s ++ 7 :: requested evs)).
Proof.
  intros host s evs.
  apply (request_while_running_joins_pass host s 1 ∅ 7 evs);
    [reflexivity | reflexivity | reflexivity |].
  repeat constructor.
Defined.

(** C2: a pass started from an idle indexer. While it runs, the current
    registry pointer and the object behind it stay as they were, and the
    indexer fills a separate, initially empty registry. Once
    [onIndexingCompleted()] has returned, the current registry holds what
    the reported files added to that empty registry, plus the self-entry
    of a package under devtools, and its JSON is the JSON of exactly
    that: nothing of the registry published before enters it. *)
Theorem pass_publishes_only_its_own_entries host s (Rold : Registry) kopt evs :
  running s = false → connectionsRegistry s = Some Rold →
  Forall (λ ev, is_finish ev = false) evs →
  (∀ n, ∃ s_n,
      run host (Request kopt :: take n evs) s = Some s_n
      ∧ running s_n = true
      ∧ s_pCurrentConnectionsRegistry s_n = s_pCurrentConnectionsRegistry s
      ∧ connectionsRegistry s_n = Some Rold
      ∧ deref (pRegistry_ s_n) s_n = Some (scanned host (reported (take n evs)) ∅))
  ∧ ∃ s',
      let Rnew := with_self_entry host (scanned host (reported evs) ∅) in
      run host (Request kopt :: evs ++ [DriverFinish]) s = Some s'
      ∧ running s' = false
      ∧ connectionsRegistry s' = Some Rnew
      ∧ connectionsRegistryAsJson s' = Some (toJson Rnew)
      ∧ deref (s_pCurrentConnectionsRegistry s) s' = Some Rold.
Proof.
  intros Hrun Hold Hevs.
  destruct (request_when_idle kopt s Hrun) as (Hr0 & Hp0 & Hh0 & Hc0 & Hk0 & He0).
  set (s0 := indexLibraryPathsWithContinuation kopt s) in *.
  unfold connectionsRegistry, deref in Hold.
  destruct (s_pCurrentConnectionsRegistry s) as [c|] eqn:Hc; simpl in Hold; [|done].
  assert (c < length (heap s)) as Hlt by by eapply lookup_lt_Some.
  assert (heap s0 !! length (heap s) = Some (∅ : Registry)) as Hnew.
  { rewrite Hh0, lookup_app_r, Nat.sub_diag by done. done. }
  assert (∀ evs', Forall (λ ev, is_finish ev = false) evs' →
            ∃ s1, run host (Request kopt :: evs') s = Some s1
                  ∧ running s1 = true
                  ∧ pRegistry_ s1 = Some (length (heap s))
                  ∧ s_pCurrentConnectionsRegistry s1 = Some c
                  ∧ heap s1 = <[length (heap s) := scanned host (reported evs') ∅]>
                                (heap s ++ [∅])) as Hpass.
  { intros evs' Hevs'.
    destruct (run_during_pass host evs' s0 _ ∅ Hevs' Hr0 Hp0 Hnew)
      as (s1 & out & Hrun1 & Hr1 & Hp1 & Hc1 & Hh1 & _).
    exists s1. split; [done|]. split; [done|]. split; [done|].
    split; [congruence|]. by rewrite Hh1, Hh0. }
  assert (∀ R : Registry,
            <[length (heap s) := R]> (heap s ++ [∅]) !! c = Some Rold) as Hkeep.
  { intros R. rewrite list_lookup_insert_ne by lia. by rewrite lookup_app_l. }
  split.
  - intros n. destruct (Hpass (take n evs)) as (s1 & Hrun1 & Hr1 & Hp1 & Hc1 & Hh1).
    { by apply Forall_take. }
    exists s1. split; [done|]. split; [done|]. split; [done|].
    unfold connectionsRegistry, deref. rewrite Hc1, Hp1, Hh1. simpl.
    split; [apply Hkeep|].
    apply list_lookup_insert_eq. rewrite length_app. simpl. lia.
  - destruct (Hpass evs Hevs) as (s1 & Hrun1 & Hr1 & Hp1 & Hc1 & Hh1).
    assert (heap s1 !! length (heap s) = Some (scanned host (reported evs) ∅)) as HR1.
    { rewrite Hh1. apply list_lookup_insert_eq. rewrite length_app. simpl. lia. }
    destruct (driver_finish_spec host s1 _ _ Hr1 Hp1 HR1)
      as (s2 & errors & Hfin & Hr2 & Hp2 & Hc2 & Hh2 & Hk2 & He2).
    exists s2. cbv zeta.
    assert (connectionsRegistry s2 =
            Some (with_self_entry host (scanned host (reported evs) ∅))) as Hcur.
    { unfold connectionsRegistry, deref. rewrite Hc2, Hh2. simpl.
      apply list_lookup_insert_eq. rewrite Hh1, length_insert, length_app.
      simpl. lia. }
    split.
    { change (Request kopt :: evs ++ [DriverFinish])
        with ((Request kopt :: evs) ++ [DriverFinish]).
      rewrite run_app, Hrun1. simpl. by rewrite Hfin. }
    split; [done|]. split; [done|]. split.
    { unfold connectionsRegistryAsJson. by rewrite Hcur. }
    unfold deref. simpl. rewrite Hh2, Hh1, list_insert_insert_eq. apply Hkeep.
Qed.

Lemma pass_publishes_only_its_own_entries_witness :
  let before := host_of {[ "old.dcf" := "Name: old" ]} in
  let s := default initial
             (run before [Request None; DriverWork "a" "old.dcf"; DriverFinish] initial) in
  let Rold : Registry := {[ "a::old" := mkEntry "old" "a" ]} in
  let host := host_of {[ "new.dcf" := "Name: new" ]} in
  let evs := [DriverWork "b" "new.dcf"] in
  (∀ n, ∃ s_n,
      run host (Request None :: take n evs) s = Some s_n
      ∧ running s_n = true
      ∧ s_pCurrentConnectionsRegistry s_n = s_pCurrentConnectionsRegistry s
      ∧ connectionsRegistry s_n = Some Rold
      ∧ deref (pRegistry_ s_n) s_n = Some (scanned host (reported (take n evs)) ∅))
  ∧ ∃ s',
      let Rnew := with_self_entry host (scanned host (reported evs) ∅) in
      run host (Request None :: evs ++ [DriverFinish]) s = Some s'
      ∧ running s' = false
      ∧ connectionsRegistry s' = Some Rnew
      ∧ connectionsRegistryAsJson s' = Some (toJson Rnew)
      ∧ deref (s_pCurrentConnectionsRegistry s) s' = Some Rold.
Proof.
  intros before s Rold host evs.
  apply (pass_publishes_only_its_own_entries host s Rold None evs);
    [reflexivity | vm_compute; reflexivity |].
  repeat constructor.
Defined.

(** C3, on the code: the queue is not emptied after it has been drained.
    A continuation queued for one pass is still queued afterwards, and the
    next pass, asked for without any continuation, calls it a second time,
    now with the JSON of the later registry. *)
Theorem continuation_resolved_again_by_next_pass :
  let host := host_of {[ "connections.dcf" := "Name: pg" ]} in
  ∃ s1 s2,
    run host [Request (Some 7); DriverFinish] initial = Some s1
    ∧ continuations_ s1 = [7]
    ∧ resolutions 7 (effects s1) = [mkResponse (Some ∅)]
    ∧ run host [Request None; DriverWork "odbc" "connections.dcf"; DriverFinish] s1
      = Some s2
    ∧ continuations_ s2 = [7]
    ∧ resolutions 7 (effects s2) =
        [mkResponse (Some ∅);
         mkResponse (Some (toJson {[ "odbc::pg" := mkEntry "pg" "odbc" ]}))].
Proof.
  cbv zeta. eexists _, _.
  split; [by vm_compute|]. split; [by vm_compute|]. split; [by vm_compute|].
  split; [by vm_compute|]. split; by vm_compute.
Qed.

(** ** Console input *)

(** C9: with the packages pane enabled, a console line whose trimmed text
    starts with one of the six package-mutating commands schedules one
    re-index, one second later and only when idle; any other line
    schedules nothing. Nothing else of the indexer changes. In particular
    install.packages("DBI") schedules one re-index and x <- 1 none. *)
Theorem onConsoleInput_schedules_once host input s :
  disablePackages host = false →
  commands s = [] ∨ commands s = known_commands →
  let s' := onConsoleInput host input s in
  effects s' =
    effects s ++ (if existsb (starts_with (trim_copy input))
                       [ "install.packages"; "remove.packages";
                         "devtools::install_github"; "install_github";
                         "devtools::load_all"; "load_all" ]
                  then [scheduleDelayedWork 1 indexLibraryPathsWork true]
                  else [])
  ∧ heap s' = heap s ∧ running s' = running s
  ∧ pRegistry_ s' = pRegistry_ s
  ∧ s_pCurrentConnectionsRegistry s' = s_pCurrentConnectionsRegistry s
  ∧ continuations_ s' = continuations_ s
  ∧ effects (onConsoleInput host ("install.packages(" +:+ dq +:+ "DBI" +:+ dq +:+ ")") s)
    = effects s ++ [scheduleDelayedWork 1 indexLibraryPathsWork true]
  ∧ effects (onConsoleInput host "x <- 1" s) = effects s.
Proof.
  intros Hdis Hcmds.
  assert (∀ line,
            onConsoleInput host line s =
            emit (if existsb (starts_with (trim_copy line)) known_commands
                  then [scheduleDelayedWork 1 indexLibraryPathsWork true] else [])
                 (set_commands known_commands s)) as Heq.
  { intros line. unfold onConsoleInput. rewrite Hdis.
    destruct Hcmds as [Hc|Hc]; rewrite Hc.
    - match goal with |- context [scan_commands ?t ?c ?s0] =>
        destruct (effects_scan_commands t c s0) as (scheduled & -> & ->)
      end. done.
    - match goal with |- context [scan_commands ?t ?c ?s0] =>
        destruct (effects_scan_commands t c s0) as (scheduled & -> & ->)
      end.
      change (match known_commands with
              | [] => set_commands known_commands s
              | _ :: _ => s
              end) with s.
      rewrite Hc. f_equal. destruct s. simpl in Hc. by subst. }
  cbv zeta. rewrite !Heq. simpl.
  repeat split; try done. by rewrite (right_id_L [] (++)).
Qed.

Lemma onConsoleInput_schedules_once_witness :
  let host := host_of ∅ in
  let s := initial in
  let input := "  remove.packages(" +:+ dq +:+ "DBI" +:+ dq +:+ ")" in
  let s' := onConsoleInput host input s in
  effects s' =
    effects s ++ (if existsb (starts_with (trim_copy input))
                       [ "install.packages"; "remove.packages";
                         "devtools::install_github"; "install_github";
                         "devtools::load_all"; "load_all" ]
                  then [scheduleDelayedWork 1 indexLibraryPathsWork true]
                  else [])
  ∧ heap s' = heap s ∧ running s' = running s
  ∧ pRegistry_ s' = pRegistry_ s
  ∧ s_pCurrentConnectionsRegistry s' = s_pCurrentConnectionsRegistry s
  ∧ continuations_ s' = continuations_ s
  ∧ effects (onConsoleInput host ("install.packages(" +:+ dq +:+ "DBI" +:+ dq +:+ ")") s)
    = effects s ++ [scheduleDelayedWork 1 indexLibraryPathsWork true]
  ∧ effects (onConsoleInput host "x <- 1" s) = effects s.
Proof.
  intros host s input.
  apply (onConsoleInput_schedules_once host input s); [reflexivity|].
  left. reflexivity.
Defined.

(** ** Reachable states *)

Lemma commands_resolve_all json s : commands (resolve_all json s) = commands s.
Proof. by rewrite resolve_all_eq. Qed.

Lemma commands_pRegistry_add host pkgName path s s' :
  pRegistry_add host pkgName path s = Some s' → commands s' = commands s.
Proof.
  unfold pRegistry_add. intros H.
  destruct (pRegistry_ s) as [p|]; simpl in H; [|done].
  destruct (heap s !! p) as [r|]; simpl in H; [|done].
  destruct (add_path host pkgName path r). by simplify_eq.
Qed.

Lemma commands_onIndexingCompleted host s s' :
  onIndexingCompleted host s = Some s' → commands s' = commands s.
Proof.
  unfold onIndexingCompleted. intros H.
  apply bind_Some in H as (s1 & H1 & H).
  apply bind_Some in H as (json & _ & [= <-]).
  rewrite commands_resolve_all. simpl.
  destruct (isDevtoolsLoadAllActive host); [|by simplify_eq].
  cbv zeta in H1.
  destruct (pathExists host _); [|by simplify_eq].
  by eapply commands_pRegistry_add.
Qed.

Lemma commands_step host s ev s' :
  step host s ev = Some s' →
  commands s = [] ∨ commands s = known_commands →
  commands s' = [] ∨ commands s' = known_commands.
Proof.
  destruct ev as [k|pkgName path| |input]; simpl.
  - intros [= <-]. unfold indexLibraryPathsWithContinuation, start, running.
    destruct k; simpl; by destruct (running_ s).
  - unfold driver_work, onWork. destruct (running s); [|done].
    intros H%commands_pRegistry_add. by rewrite H.
  - unfold driver_finish. destruct (running s); [|done].
    intros (s1 & H1 & ->)%fmap_Some. simpl.
    by rewrite (commands_onIndexingCompleted _ _ _ H1).
  - intros [= <-] Hc. unfold onConsoleInput.
    destruct (disablePackages host); [done|]. right.
    match goal with |- context [scan_commands ?t ?c ?s0] =>
      destruct (effects_scan_commands t c s0) as (scheduled & -> & _)
    end.
    simpl. destruct Hc as [Hc|Hc]; rewrite Hc; [done|exact Hc].
Qed.

Lemma onConsoleInput_frame host input s :
  let s' := onConsoleInput host input s in
  heap s' = heap s ∧ running s' = running s ∧ pRegistry_ s' = pRegistry_ s
  ∧ s_pCurrentConnectionsRegistry s' = s_pCurrentConnectionsRegistry s
  ∧ continuations_ s' = continuations_ s.
Proof.
  cbv zeta. unfold onConsoleInput.
  destruct (disablePackages host); [done|].
  match goal with |- context [scan_commands ?t ?c ?s0] =>
    destruct (effects_scan_commands t c s0) as (scheduled & -> & _)
  end.
  by destruct (commands s).
Qed.

Lemma well_formed_initial : well_formed initial.
Proof.
  split; [by exists ∅|]. split; [done|]. by left.
Qed.

Lemma deref_insert (h : list Registry) p q (R : Registry) :
  is_Some (h !! q) → is_Some (<[p := R]> h !! q).
Proof.
  rewrite !lookup_lt_is_Some. by rewrite length_insert.
Qed.

Lemma well_formed_step host s ev s' :
  well_formed s → step host s ev = Some s' → well_formed s'.
Proof.
  intros (Hcur & Hreg & Hcmd) Hstep.
  split; [|split; [|by eapply commands_step]].
  - destruct (running s) eqn:Hrun.
    + destruct (Hreg eq_refl) as [R HR]. unfold deref in HR.
      destruct (pRegistry_ s) as [p|] eqn:Hp; simpl in HR; [|done].
      unfold connectionsRegistry, deref in *.
      destruct (is_finish ev) eqn:Hev.
      * destruct ev; try done. simpl in Hstep.
        destruct (driver_finish_spec host s p R Hrun Hp HR)
          as (s2 & errors & Hfin & _ & _ & Hc2 & Hh2 & _).
        rewrite Hfin in Hstep. simplify_eq. rewrite Hc2, Hh2. simpl.
        apply deref_insert. eauto.
      * destruct (step_during_pass host s ev p R Hev Hrun Hp HR)
          as (s2 & out & Hstep2 & _ & _ & Hc2 & Hh2 & _).
        rewrite Hstep2 in Hstep. simplify_eq. rewrite Hc2, Hh2.
        destruct (s_pCurrentConnectionsRegistry s) as [c|]; simpl in *; [|done].
        by apply deref_insert.
    + unfold connectionsRegistry, deref in *.
      destruct ev as [k|pkgName path| |input]; simpl in Hstep.
      * simplify_eq.
        destruct (request_when_idle k s Hrun) as (_ & _ & Hh0 & Hc0 & _).
        rewrite Hc0, Hh0.
        destruct (s_pCurrentConnectionsRegistry s) as [c|]; simpl in *; [|done].
        destruct Hcur as [Rc Hc]. exists Rc. by apply lookup_app_l_Some.
      * unfold driver_work in Hstep. by rewrite Hrun in Hstep.
      * unfold driver_finish in Hstep. by rewrite Hrun in Hstep.
      * simplify_eq.
        destruct (onConsoleInput_frame host input s) as (-> & _ & _ & -> & _).
        done.
  - intros Hrun'. unfold deref.
    destruct (running s) eqn:Hrun.
    + destruct (Hreg eq_refl) as [R HR]. unfold deref in HR.
      destruct (pRegistry_ s) as [p|] eqn:Hp; simpl in HR; [|done].
      destruct (is_finish ev) eqn:Hev.
      * destruct ev; try done. simpl in Hstep.
        destruct (driver_finish_spec host s p R Hrun Hp HR)
          as (s2 & errors & Hfin & Hr2 & _).
        rewrite Hfin in Hstep. simplify_eq. congruence.
      * destruct (step_during_pass host s ev p R Hev Hrun Hp HR)
          as (s2 & out & Hstep2 & _ & Hp2 & _ & Hh2 & _).
        rewrite Hstep2 in Hstep. simplify_eq. rewrite Hp2, Hh2. simpl.
        apply deref_insert. eauto.
    + destruct ev as [k|pkgName path| |input]; simpl in Hstep.
      * simplify_eq.
        destruct (request_when_idle k s Hrun) as (_ & Hp0 & Hh0 & _).
        rewrite Hp0, Hh0. simpl. exists ∅.
        by rewrite lookup_app_r, Nat.sub_diag.
      * unfold driver_work in Hstep. by rewrite Hrun in Hstep.
      * unfold driver_finish in Hstep. by rewrite Hrun in Hstep.
      * simplify_eq.
        destruct (onConsoleInput_frame host input s) as (_ & Hr & _).
        congruence.
Qed.

(** Every state reached from start-up is well formed, and in a well-formed
    state every event the driver protocol allows is carried out. *)
Lemma well_formed_run host evs s s' :
  well_formed s → run host evs s = Some s' → well_formed s'.
Proof.
  revert s. induction evs as [|ev evs IH]; intros s Hwf; simpl.
  - by intros [= <-].
  - intros (s1 & Hstep & Hrun)%bind_Some. eauto using well_formed_step.
Qed.

Lemma step_enabled host s ev :
  well_formed s → enabled s ev → is_Some (step host s ev).
Proof.
  intros (Hcur & Hreg & Hcmd) Hen.
  destruct ev as [k|pkgName path| |input]; simpl in *; [eauto| | |eauto].
  - unfold driver_work. rewrite Hen. by apply onWork_is_Some, Hreg.
  - destruct (Hreg Hen) as [R HR]. unfold deref in HR.
    destruct (pRegistry_ s) as [p|] eqn:Hp; simpl in HR; [|done].
    destruct (driver_finish_spec host s p R Hen Hp HR) as (s2 & errors & -> & _).
    eauto.
Qed.

(** * Further properties of the code *)

(** ** Registry look-ups *)

(** X1: after [add(package, spec)] the registry contains the key of
    [spec], and keeps containing it whatever is added later; [get] on
    that key returns [spec] and leaves the registry as it is. *)
Theorem add_then_contains_and_get package spec (r : Registry) calls :
  contains package (getName spec) (adds calls (add package spec r)) = true
  ∧ get package (getName spec) (add package spec r) = (spec, add package spec r).
Proof.
  split.
  - unfold contains. apply bool_decide_eq_true, elem_of_dom.
    rewrite dom_adds, dom_add. set_solver.
  - unfold get, subscript, add. by rewrite lookup_insert_eq.
Qed.

(** X2: [get] changes the registry at most once: on a key that is
    present it returns the stored entry and changes nothing, and a second
    [get] on the same key returns what the first returned and changes
    nothing either. *)
Theorem get_settles package name (r : Registry) :
  (∀ e, r !! constructKey package name = Some e → get package name r = (e, r))
  ∧ get package name (get package name r).2 = get package name r.
Proof.
  unfold get, subscript. split.
  - by intros e ->.
  - destruct (r !! constructKey package name) as [e|] eqn:E; simpl.
    + by rewrite E.
    + by rewrite lookup_insert_eq.
Qed.

Lemma get_settles_witness :
  get "odbc" "pg" {[ "odbc::pg" := mkEntry "pg" "odbc" ]}
  = (mkEntry "pg" "odbc", {[ "odbc::pg" := mkEntry "pg" "odbc" ]}).
Proof.
  apply (proj1 (get_settles "odbc" "pg" {[ "odbc::pg" := mkEntry "pg" "odbc" ]})).
  reflexivity.
Defined.

Lemma append_cons x (a b : string) : String x a +:+ b = String x (a +:+ b).
Proof. reflexivity. Qed.

Lemma append_nil_l (a : string) : EmptyString +:+ a = a.
Proof. reflexivity. Qed.

Lemma append_assoc_L (a b c : string) : (a +:+ b) +:+ c = a +:+ (b +:+ c).
Proof. induction a as [|x a IH]; [done|]. by rewrite !append_cons, IH. Qed.

Lemma constructKey_inj p1 n1 p2 n2 :
  no_colon p1 = true → no_colon p2 = true →
  constructKey p1 n1 = constructKey p2 n2 → p1 = p2 ∧ n1 = n2.
Proof.
  unfold constructKey. revert n1 p2 n2.
  induction p1 as [|c p1 IH]; intros n1 p2 n2 H1 H2.
  - destruct p2 as [|d p2]; simpl; intros Heq.
    + by simplify_eq.
    + simplify_eq; by simpl in H2.
  - destruct p2 as [|d p2]; simpl; intros Heq.
    + simplify_eq; by simpl in H1.
    + injection Heq as -> Heq. simpl in H1, H2.
      apply andb_prop in H1 as [_ H1]. apply andb_prop in H2 as [_ H2].
      destruct (IH _ _ _ H1 H2 Heq) as [-> ->]. done.
Qed.

(** X3: for package names without a colon, [constructKey] tells
    (package, name) pairs apart; with colons allowed it does not: the
    text after a [::] inside the package can move into the name. *)
Theorem constructKey_injective_without_colon :
  (∀ p1 n1 p2 n2,
     no_colon p1 = true → no_colon p2 = true →
     constructKey p1 n1 = constructKey p2 n2 → p1 = p2 ∧ n1 = n2)
  ∧ (∀ p x n, constructKey (p +:+ "::" +:+ x) n = constructKey p (x +:+ "::" +:+ n)).
Proof.
  split; [apply constructKey_inj|].
  intros p x n. unfold constructKey. by rewrite !append_assoc_L.
Qed.

Lemma constructKey_injective_without_colon_witness :
  "odbc" = "odbc" ∧ "pg" = "pg".
Proof.
  apply (proj1 constructKey_injective_without_colon "odbc" "pg" "odbc" "pg");
    reflexivity.
Defined.

Lemma Entry_toJson_inj e1 e2 : Entry.toJson e1 = Entry.toJson e2 → e1 = e2.
Proof.
  intros H. destruct e1 as [n1 p1], e2 as [n2 p2].
  assert (Entry.toJson (mkEntry n1 p1) !! "name" = Entry.toJson (mkEntry n2 p2) !! "name")
    as Hn by by rewrite H.
  assert (Entry.toJson (mkEntry n1 p1) !! "package" = Entry.toJson (mkEntry n2 p2) !! "package")
    as Hp by by rewrite H.
  unfold Entry.toJson in Hn, Hp. simpl in Hn, Hp.
  rewrite (lookup_insert_ne _ "package" "name") in Hn by done.
  rewrite (lookup_insert_ne _ "package" "name") in Hn by done.
  rewrite !lookup_insert_eq in Hn. rewrite !lookup_insert_eq in Hp.
  congruence.
Qed.

(** X4: [toJson()] loses nothing: the object has exactly the keys of the
    registry, as many members as [size()] counts, and two registries with
    the same JSON are the same registry. *)
Theorem toJson_faithful :
  (∀ r : Registry, dom (toJson r) = dom r)
  ∧ (∀ r : Registry, base.size (toJson r) = size r)
  ∧ (∀ r1 r2 : Registry, toJson r1 = toJson r2 → r1 = r2).
Proof.
  split; [|split].
  - intros r. by rewrite toJson_fmap, dom_fmap_L.
  - intros r. unfold size. by rewrite toJson_fmap, map_size_fmap.
  - intros r1 r2 H. apply map_eq. intros key.
    assert (toJson r1 !! key = toJson r2 !! key) as Hk by by rewrite H.
    rewrite !toJson_lookup in Hk.
    destruct (r1 !! key) as [e1|], (r2 !! key) as [e2|]; simpl in Hk; try done.
    f_equal. apply Entry_toJson_inj. congruence.
Qed.

(** ** The shape of the blocks *)

Lemma append_nil_r (a : string) : a +:+ EmptyString = a.
Proof. induction a as [|x a IH]; [done|]. by rewrite append_cons, IH. Qed.

Lemma length_append (a b : string) :
  String.length (a +:+ b) = String.length a + String.length b.
Proof. induction a as [|x a IH]; [done|]. rewrite append_cons. simpl. by rewrite IH. Qed.

Lemma length_LFs n : String.length (LFs n) = n.
Proof. induction n as [|n IH]; simpl; [done|]. by rewrite IH. Qed.

Lemma is_LF_eq c : is_LF c = true → c = LF.
Proof. unfold is_LF. by intros ?%Ascii.eqb_eq. Qed.

Lemma starts_with_LF_skip_LF s : starts_with_LF (skip_LF s) = false.
Proof.
  induction s as [|c s IH]; simpl; [done|].
  destruct (is_LF c) eqn:E; [done|]. simpl. exact E.
Qed.

Lemma skip_LF_split s :
  ∃ m, s = LFs m +:+ skip_LF s ∧ (starts_with_LF s = true → (1 ≤ m)%nat).
Proof.
  induction s as [|c s (m & Hm & _)]; simpl.
  - by exists 0.
  - destruct (is_LF c) eqn:E.
    + exists (S m). apply is_LF_eq in E as ->. split; [|lia].
      simpl. rewrite append_cons. by f_equal.
    + by exists 0.
Qed.

(** What a successful search tells: the text before the match holds no
    separator and does not end in a line feed, the text after the match
    does not begin with one, and between them lie two or more line feeds. *)
Lemma regex_search_Some s before rest :
  regex_search s = Some (before, rest) →
  blank_line before = false ∧ ends_with_LF before = false
  ∧ starts_with_LF rest = false
  ∧ ∃ n, (2 ≤ n)%nat ∧ s = before +:+ LFs n +:+ rest.
Proof.
  revert before rest. induction s as [|c s IH]; intros before rest; simpl; [done|].
  destruct (is_LF c && starts_with_LF s) eqn:E.
  - intros [= <- <-]. apply andb_prop in E as [Hc Hs].
    split; [done|]. split; [done|]. split; [apply starts_with_LF_skip_LF|].
    destruct (skip_LF_split s) as (m & Hm & Hge).
    exists (S m). split; [specialize (Hge Hs); lia|].
    apply is_LF_eq in Hc as ->. rewrite append_nil_l. simpl.
    rewrite append_cons. by f_equal.
  - destruct (regex_search s) as [[p r]|] eqn:F; [|done].
    intros [= <- <-].
    destruct (IH _ _ eq_refl) as (Hb & He & Hr & n & Hn & Hs).
    assert (starts_with_LF s = starts_with_LF (p +:+ LFs n)) as Hstart.
    { rewrite Hs. destruct p; [|done]. destruct n; [lia|done]. }
    split; [|split; [|split; [done|]]].
    + simpl. rewrite Hb, orb_false_r.
      destruct p as [|d p]; [by rewrite andb_false_r|].
      rewrite Hstart in E. exact E.
    + destruct p as [|d p]; [|exact He]. simpl.
      rewrite Hstart in E. destruct n; [lia|]. simpl in E.
      by rewrite andb_true_r in E.
    + exists n. split; [done|]. rewrite append_cons. by f_equal.
Qed.

Lemma regex_search_None_inv s : regex_search s = None → blank_line s = false.
Proof.
  induction s as [|c s IH]; simpl; [done|].
  destruct (is_LF c && starts_with_LF s); [done|].
  destruct (regex_search s) as [[p r]|]; [done|]. intros _. by rewrite IH.
Qed.

Lemma regex_search_length s before rest :
  regex_search s = Some (before, rest) → String.length rest < String.length s.
Proof.
  intros (_ & _ & _ & n & Hn & ->)%regex_search_Some.
  rewrite !length_append, length_LFs. lia.
Qed.

(** Induction on a text along the matches of the separator. *)
Lemma tokens_ind (P : string → Prop) :
  (∀ s, regex_search s = None → P s) →
  (∀ s before rest, regex_search s = Some (before, rest) → P rest → P s) →
  ∀ s, P s.
Proof.
  intros Hnone Hsome s.
  remember (String.length s) as m eqn:Hm. revert s Hm.
  induction m as [m IH] using lt_wf_ind. intros s ->.
  destruct (regex_search s) as [[before rest]|] eqn:E; [|by apply Hnone].
  eapply Hsome; [done|]. eapply IH; [|done]. by eapply regex_search_length.
Qed.

(** The first block of a text that does not begin with a line feed is
    not empty and does not begin with one either. *)
Lemma tokens_head s :
  s ≠ EmptyString → starts_with_LF s = false →
  ∃ b bs, tokens s = b :: bs ∧ b ≠ EmptyString ∧ starts_with_LF b = false.
Proof.
  intros Hne Hs. rewrite tokens_eq.
  destruct (regex_search s) as [[before rest]|] eqn:E.
  - exists before, (tokens rest). split; [done|].
    apply regex_search_Some in E as (_ & _ & _ & n & Hn & ->).
    destruct before as [|c before]; [|done].
    destruct n; [lia|done].
  - exists s, []. by rewrite decide_False.
Qed.

(** X5: the blocks [add] works on. No block holds two line feeds in a
    row; every block but the first is non-empty and starts with a
    character that is not a line feed; every block but the last ends
    without a line feed. *)
Theorem tokens_are_blocks s :
  Forall (λ b, blank_line b = false) (tokens s)
  ∧ Forall (λ b, b ≠ EmptyString ∧ starts_with_LF b = false) (tail (tokens s))
  ∧ (∀ bs b, tokens s = bs ++ [b] → Forall (λ b', ends_with_LF b' = false) bs).
Proof.
  induction s as [s Hnone|s before rest Hsome (IH1 & IH2 & IH3)] using tokens_ind.
  - rewrite tokens_eq, Hnone. apply regex_search_None_inv in Hnone.
    case_decide.
    + split; [done|]. split; [done|]. by intros [|??] ?.
    + split; [by constructor|]. split; [done|].
      intros [|b' [|??]] b; by intros [=].
  - rewrite tokens_eq, Hsome.
    apply regex_search_Some in Hsome as (Hb & He & Hr & n & Hn & ->).
    split; [by constructor|]. split.
    + simpl. destruct (decide (rest = EmptyString)) as [->|Hne].
      { by rewrite tokens_eq. }
      destruct (tokens_head rest Hne Hr) as (b & bs & Htok & Hb1 & Hb2).
      rewrite Htok in *. simpl in IH2. by constructor.
    + intros [|b' bs] b Heq; [done|]. injection Heq as <- Heq.
      constructor; [done|]. by eapply IH3.
Qed.

Lemma strip_LF_append a b : strip_LF (a +:+ b) = strip_LF a +:+ strip_LF b.
Proof.
  induction a as [|x a IH]; [done|]. rewrite append_cons. simpl.
  destruct (is_LF x); [done|]. by rewrite append_cons, IH.
Qed.

Lemma strip_LF_LFs n : strip_LF (LFs n) = EmptyString.
Proof. by induction n. Qed.

(** X6: splitting drops line feeds and nothing else: the characters of
    the file other than line feeds are those of the blocks, in order. *)
Theorem tokens_keep_text s :
  strip_LF s = join (strip_LF <$> tokens s).
Proof.
  induction s as [s Hnone|s before rest Hsome IH] using tokens_ind.
  - rewrite tokens_eq, Hnone. case_decide as Hs; [by rewrite Hs|].
    simpl. by rewrite append_nil_r.
  - rewrite tokens_eq, Hsome.
    apply regex_search_Some in Hsome as (_ & _ & _ & n & _ & ->).
    rewrite fmap_cons. unfold join in *. cbn [foldr]. rewrite <- IH.
    by rewrite !strip_LF_append, strip_LF_LFs, append_nil_l.
Qed.

Lemma tokens_are_blocks_witness :
  Forall (λ b', ends_with_LF b' = false) ["Name: pg"].
Proof.
  apply (proj2 (proj2 (tokens_are_blocks ("Name: pg" +:+ LFs 3 +:+ "Name: sqlite")))
           ["Name: pg"] "Name: sqlite").
  reflexivity.
Defined.

(** ** Files with blank lines at their ends, and what a file may touch *)

(** X7: an empty file adds nothing and logs nothing. Blank lines at the
    end of a file add no block. Blank lines at the start of a file do:
    the empty text before them goes through the parser and [add] like
    any block. *)
Theorem add_path_blank_lines host pkgName path b n (r : Registry) :
  (2 ≤ n)%nat → blank_line b = false → ends_with_LF b = false →
  (readStringFromFile host path = (Success, EmptyString) →
   add_path host pkgName path r = (r, []))
  ∧ (readStringFromFile host path = (Success, b +:+ LFs n) →
     add_path host pkgName path r = add_block host pkgName (r, []) b)
  ∧ (b ≠ EmptyString → starts_with_LF b = false →
     readStringFromFile host path = (Success, LFs n +:+ b) →
     add_path host pkgName path r =
     add_block host pkgName (add_block host pkgName (r, []) EmptyString) b).
Proof.
  intros Hn Hb He. split; [|split].
  - intros Hread. rewrite (add_path_read_ok _ _ _ _ _ Hread). by rewrite tokens_eq.
  - intros Hread. rewrite (add_path_read_ok _ _ _ _ _ Hread).
    rewrite <- (append_nil_r (LFs n)), tokens_separator by done.
    by rewrite tokens_eq.
  - intros Hne Hs Hread. rewrite (add_path_read_ok _ _ _ _ _ Hread).
    rewrite <- (append_nil_l (LFs n +:+ b)), tokens_separator by done.
    by rewrite tokens_single.
Qed.

Lemma add_path_blank_lines_witness :
  let host := host_of {[ "connections.dcf" := LFs 2 +:+ "Name: pg" ]} in
  add_path host "odbc" "connections.dcf" ∅ =
  add_block host "odbc" (add_block host "odbc" (∅, []) EmptyString) "Name: pg".
Proof.
  intros host.
  apply (add_path_blank_lines host "odbc" "connections.dcf" "Name: pg" 2 ∅);
    [lia | reflexivity | reflexivity | discriminate | reflexivity | reflexivity].
Defined.

Lemma add_fields_lookup pkgName fields (r : Registry) key :
  add_fields pkgName fields r !! key =
  if decide (constructKey pkgName (default "" (fields !! "Name")) = key)
  then Some (mkEntry (default "" (fields !! "Name")) pkgName)
  else r !! key.
Proof. rewrite add_fields_key. apply lookup_insert. Qed.

(** Entries are looked at through [own]: what was there before, or an
    entry of the package being added, stored under its own key. *)
Lemma foldl_add_fields_own pkgName (fields : string → gmap string string) blocks :
  ∀ (r : Registry) key e,
    foldl (λ r block, add_fields pkgName (fields block) r) r blocks !! key = Some e →
    r !! key = Some e
    ∨ (getPackage e = pkgName ∧ key = constructKey pkgName (getName e)).
Proof.
  induction blocks as [|b blocks IH]; intros r key e; simpl; [by left|].
  intros [H|H]%IH; [|by right].
  rewrite add_fields_lookup in H. case_decide as Hk; [|by left].
  right. by simplify_eq.
Qed.

Lemma foldl_add_fields_dom pkgName (fields : string → gmap string string) blocks :
  ∀ r : Registry,
    dom r ⊆ dom (foldl (λ r block, add_fields pkgName (fields block) r) r blocks).
Proof.
  induction blocks as [|b blocks IH]; intros r; simpl; [done|].
  etrans; [|apply IH]. rewrite add_fields_key, dom_insert_L. set_solver.
Qed.

Lemma add_path_own host pkgName path (r : Registry) key e :
  (add_path host pkgName path r).1 !! key = Some e →
  r !! key = Some e
  ∨ (getPackage e = pkgName ∧ key = constructKey pkgName (getName e)).
Proof.
  rewrite add_path_eq. destruct (readStringFromFile host path) as [error contents].
  destruct (isError error); simpl; [by left|].
  apply (foldl_add_fields_own pkgName (λ block, (parseDcfFile host block).2)).
Qed.

Lemma add_path_dom host pkgName path (r : Registry) :
  dom r ⊆ dom (add_path host pkgName path r).1.
Proof.
  rewrite add_path_eq. destruct (readStringFromFile host path) as [error contents].
  destruct (isError error); simpl; [done|].
  apply (foldl_add_fields_dom pkgName (λ block, (parseDcfFile host block).2)).
Qed.

(** X9: [add(pkgName, path)] never removes a key, and whatever it writes
    is an entry of [pkgName] under [pkgName::name]. With package names
    free of colons, the entries of every other package are left exactly
    as they were. *)
Theorem add_path_touches_own_package_only host pkgName path (r : Registry) :
  dom r ⊆ dom (add_path host pkgName path r).1
  ∧ (∀ key e,
       (add_path host pkgName path r).1 !! key = Some e →
       r !! key = Some e
       ∨ (getPackage e = pkgName ∧ key = constructKey pkgName (getName e)))
  ∧ (∀ package name,
       no_colon package = true → no_colon pkgName = true → package ≠ pkgName →
       (add_path host pkgName path r).1 !! constructKey package name
       = r !! constructKey package name).
Proof.
  split; [apply add_path_dom|]. split; [apply add_path_own|].
  intros package name Hp Hpkg Hne.
  destruct ((add_path host pkgName path r).1 !! constructKey package name)
    as [e|] eqn:E.
  - apply add_path_own in E as [E|[_ E]]; [done|].
    apply constructKey_inj in E as [? _]; done.
  - symmetry. apply not_elem_of_dom. intros Hin.
    apply (add_path_dom host pkgName path) in Hin.
    by apply not_elem_of_dom in E.
Qed.

Lemma add_path_touches_own_package_only_witness :
  let host := host_of {[ "connections.dcf" := "Name: pg" ]} in
  let r : Registry := {[ "DBI::any" := mkEntry "any" "DBI" ]} in
  (add_path host "odbc" "connections.dcf" r).1 !! constructKey "DBI" "any"
  = r !! constructKey "DBI" "any".
Proof.
  intros host r.
  apply (proj2 (proj2 (add_path_touches_own_package_only
                         host "odbc" "connections.dcf" r)));
    [reflexivity | reflexivity | discriminate].
Defined.

Lemma scanned_own host files :
  ∀ (r : Registry) key e,
    scanned host files r !! key = Some e →
    r !! key = Some e
    ∨ (getPackage e ∈ files.*1 ∧ key = constructKey (getPackage e) (getName e)).
Proof.
  unfold scanned. induction files as [|f files IH]; intros r key e; simpl; [by left|].
  intros [H|[Hin Hk]]%IH.
  - apply add_path_own in H as [H|[Hp Hk]]; [by left|]. right.
    split; [|by rewrite Hp]. rewrite <- Hp. set_solver.
  - right. split; [set_solver|done].
Qed.

Lemma with_self_entry_own host (r : Registry) key e :
  with_self_entry host r !! key = Some e →
  r !! key = Some e
  ∨ (getPackage e = packageInfoName host
     ∧ key = constructKey (getPackage e) (getName e)).
Proof.
  unfold with_self_entry.
  destruct (isDevtoolsLoadAllActive host); [|by left]. cbv zeta.
  destruct (pathExists host _); [|by left].
  intros [H|[Hp Hk]]%add_path_own; [by left|]. right. by rewrite Hp.
Qed.

(** X8: in the registry a pass builds, every entry sits under the key
    made of its own package and name, its package is one the driver
    reported or the package under development, and its JSON member
    carries that same name and package. *)
Theorem pass_registry_keys_match_entries host files key e :
  with_self_entry host (scanned host files ∅) !! key = Some e →
  key = constructKey (getPackage e) (getName e)
  ∧ getPackage e ∈ packageInfoName host :: files.*1
  ∧ toJson (with_self_entry host (scanned host files ∅))
      !! (getPackage e +:+ "::" +:+ getName e)
    = Some (JObject {[ "name" := JString (getName e);
                       "package" := JString (getPackage e) ]}).
Proof.
  intros H.
  assert (key = constructKey (getPackage e) (getName e)
          ∧ getPackage e ∈ packageInfoName host :: files.*1) as [Hk Hp].
  { apply with_self_entry_own in H as [H|[Hp Hk]].
    - apply scanned_own in H as [H|[Hp Hk]]; [done|]. split; [done|set_solver].
    - split; [done|]. rewrite Hp. set_solver. }
  split; [done|]. split; [done|].
  fold (constructKey (getPackage e) (getName e)). rewrite <- Hk.
  rewrite toJson_lookup, H. reflexivity.
Qed.

Lemma pass_registry_keys_match_entries_witness :
  let host := host_of {[ "connections.dcf" := "Name: pg" ]} in
  let files := [("odbc", "connections.dcf")] in
  let e := mkEntry "pg" "odbc" in
  "odbc::pg" = constructKey (getPackage e) (getName e)
  ∧ getPackage e ∈ packageInfoName host :: files.*1
  ∧ toJson (with_self_entry host (scanned host files ∅))
      !! (getPackage e +:+ "::" +:+ getName e)
    = Some (JObject {[ "name" := JString (getName e);
                       "package" := JString (getPackage e) ]}).
Proof.
  intros host files e.
  apply (pass_registry_keys_match_entries host files "odbc::pg" e).
  reflexivity.
Defined.

(** X10: what [add(pkgName, path)] logs. Every logged value is an error
    that is set; nothing is logged exactly when the file was read and
    every block of it parsed; and the log does not depend on the package
    name or on the registry added to. *)
Theorem add_path_logs_exactly_the_errors host pkgName path (r : Registry) :
  Forall (λ eff, ∃ error, eff = LOG_ERROR error ∧ isError error = true)
         (add_path host pkgName path r).2
  ∧ ((add_path host pkgName path r).2 = [] ↔
     isError (readStringFromFile host path).1 = false
     ∧ Forall (λ block, isError (parseDcfFile host block).1 = false)
              (tokens (readStringFromFile host path).2))
  ∧ (∀ pkgName' (r' : Registry),
       (add_path host pkgName' path r').2 = (add_path host pkgName path r).2).
Proof.
  split; [|split].
  - rewrite add_path_eq. destruct (readStringFromFile host path) as [error contents].
    destruct (isError error) eqn:E; simpl.
    + constructor; [eauto|done].
    + apply Forall_fmap, Forall_forall. intros e [He _]%list_elem_of_filter. eauto.
  - rewrite add_path_eq. destruct (readStringFromFile host path) as [error contents].
    simpl. destruct (isError error) eqn:E; simpl.
    + split; [done|]. by intros [? _].
    + split.
      * intros Hnil%fmap_nil_inv. split; [done|]. apply Forall_forall. intros b Hb.
        destruct (isError (parseDcfFile host b).1) eqn:Eb; [|done].
        exfalso. eapply (filter_nil_not_elem_of _ _ _ Hnil Eb).
        apply list_elem_of_fmap. eauto.
      * intros [_ Hall]. induction Hall as [|b bs Hb _ IH]; [done|].
        rewrite fmap_cons, filter_cons, decide_False; [exact IH|].
        by rewrite Hb.
  - intros pkgName' r'. rewrite !add_path_eq.
    destruct (readStringFromFile host path) as [error contents].
    by destruct (isError error).
Qed.

Lemma add_path_logs_exactly_the_errors_witness :
  (add_path (host_of {[ "connections.dcf" := "Name: pg" ]})
            "odbc" "connections.dcf" ∅).2 = [].
Proof.
  apply (proj1 (proj2 (add_path_logs_exactly_the_errors
                         (host_of {[ "connections.dcf" := "Name: pg" ]})
                         "odbc" "connections.dcf" ∅))).
  split; [reflexivity|]. vm_compute. repeat constructor.
Defined.

(** ** What any run of the session does *)

Lemma no_resolutions_reports_success out :
  (∀ k, resolutions k out = []) → Forall reports_success out.
Proof.
  intros H. apply Forall_forall. intros [e|k e r|n w b] Hin; try done.
  exfalso. specialize (H k).
  apply list_elem_of_split in Hin as (l1 & l2 & ->).
  rewrite resolutions_app in H. apply app_eq_nil in H as [_ H].
  unfold resolutions in H. simpl in H. by rewrite decide_True in H.
Qed.

Lemma resolutions_resolved k json ks :
  k ∈ ks →
  (1 ≤ length (resolutions k ((λ k', Resolve k' Success (mkResponse (Some json))) <$> ks)))%nat.
Proof.
  induction ks as [|k' ks IH]; [by intros ?%not_elem_of_nil|].
  rewrite fmap_cons. unfold resolutions in *. cbn [omap list_omap].
  destruct (decide (k' = k)) as [->|Hne]; simpl; [lia|].
  intros [?|Hin]%elem_of_cons; [done|]. by apply IH.
Qed.

(** One event from a well-formed state: what is added to the trace and
    to the queue. *)
Lemma step_trace host s ev s1 :
  well_formed s → step host s ev = Some s1 →
  ∃ out,
    effects s1 = effects s ++ out
    ∧ continuations_ s1 = continuations_ s ++ requested [ev]
    ∧ Forall reports_success out
    ∧ (is_finish ev = false → ∀ k, resolutions k out = [])
    ∧ (is_finish ev = true → ∀ k, k ∈ continuations_ s → (1 ≤ length (resolutions k out))%nat).
Proof.
  intros (Hcur & Hreg & Hcmd) Hstep.
  destruct (running s) eqn:Hrun.
  - destruct (Hreg eq_refl) as [R HR]. unfold deref in HR.
    destruct (pRegistry_ s) as [p|] eqn:Hp; simpl in HR; [|done].
    destruct (is_finish ev) eqn:Hev.
    + destruct ev; try done. simpl in Hstep.
      destruct (driver_finish_spec host s p R Hrun Hp HR)
        as (s2 & errors & Hfin & _ & _ & _ & _ & Hk2 & He2).
      rewrite Hfin in Hstep. simplify_eq.
      eexists. split; [exact He2|].
      split; [rewrite Hk2; symmetry; apply (right_id_L [] (++))|].
      split.
      { apply Forall_app. split.
        - apply no_resolutions_reports_success. intros k. apply resolutions_LOG_ERROR.
        - apply Forall_fmap, Forall_forall. intros k _. simpl. eauto. }
      split; [done|]. intros _ k Hk.
      rewrite resolutions_app, resolutions_LOG_ERROR. simpl.
      by apply resolutions_resolved.
    + destruct (step_during_pass host s ev p R Hev Hrun Hp HR)
        as (s2 & out & Hstep2 & _ & _ & _ & _ & Hk2 & He2 & Hout).
      rewrite Hstep2 in Hstep. simplify_eq.
      exists out. split; [done|]. split; [done|].
      split; [by apply no_resolutions_reports_success|]. by split.
  - destruct ev as [k|pkgName path| |input]; simpl in Hstep.
    + simplify_eq.
      destruct (request_when_idle k s Hrun) as (_ & _ & _ & _ & Hk0 & He0).
      exists []. rewrite (right_id_L [] (++)). by repeat split.
    + unfold driver_work in Hstep. by rewrite Hrun in Hstep.
    + unfold driver_finish in Hstep. by rewrite Hrun in Hstep.
    + simplify_eq.
      destruct (onConsoleInput_frame host input s) as (_ & _ & _ & _ & Hk).
      assert (∃ scheduled, effects (onConsoleInput host input s) = effects s ++ scheduled
                           ∧ ∀ k, resolutions k scheduled = []) as (out & He & Hout).
      { unfold onConsoleInput. destruct (disablePackages host).
        - exists []. by rewrite (right_id_L [] (++)).
        - match goal with |- context [scan_commands ?t ?c ?s0] =>
            destruct (effects_scan_commands t c s0) as (scheduled & -> & Hs)
          end.
          exists scheduled. split; [by destruct (commands s)|].
          intros k. subst scheduled. by destruct (existsb _ _). }
      exists out. split; [done|].
      split; [rewrite Hk; symmetry; apply (right_id_L [] (++))|].
      split; [by apply no_resolutions_reports_success|]. by split.
Qed.

Lemma run_trace host evs : ∀ s s',
  well_formed s → run host evs s = Some s' →
  ∃ out,
    effects s' = effects s ++ out
    ∧ continuations_ s' = continuations_ s ++ requested evs
    ∧ Forall reports_success out
    ∧ (Forall (λ ev, is_finish ev = false) evs → ∀ k, resolutions k out = [])
    ∧ (∀ k, k ∈ continuations_ s → (finishes evs ≤ length (resolutions k out))%nat).
Proof.
  induction evs as [|ev evs IH]; intros s s' Hwf; cbn [run].
  - intros [= <-]. exists []. simpl. rewrite !(right_id_L [] (++)).
    repeat split; try done; intros k _; unfold finishes; simpl; lia.
  - intros (s1 & Hstep & Hrun)%bind_Some.
    destruct (step_trace host s ev s1 Hwf Hstep) as (out1 & He1 & Hk1 & Hok1 & Hno1 & Hfin1).
    destruct (IH s1 s' (well_formed_step _ _ _ _ Hwf Hstep) Hrun)
      as (out2 & He2 & Hk2 & Hok2 & Hno2 & Hfin2).
    exists (out1 ++ out2).
    split; [by rewrite He2, He1, (assoc_L (++))|].
    split; [by rewrite Hk2, Hk1, <- (assoc_L (++)), (requested_cons ev evs)|].
    split; [by apply Forall_app|].
    split.
    { intros [Hev Hevs]%Forall_cons k.
      by rewrite resolutions_app, Hno1, Hno2. }
    intros k Hk. rewrite resolutions_app, length_app.
    assert (k ∈ continuations_ s1) as Hk' by (rewrite Hk1; set_solver).
    specialize (Hfin2 k Hk'). unfold finishes in *. rewrite filter_cons.
    destruct (is_finish ev) eqn:Hev.
    + rewrite decide_True by done. specialize (Hfin1 eq_refl k Hk). simpl. lia.
    + rewrite decide_False by (by intros ?). lia.
Qed.

(** X11: the queue of continuations is never shortened: after any run
    it is the queue before with every continuation requested since, in
    order. A continuation in the queue is therefore called again at each
    later end of a walk. *)
Theorem queued_continuations_stay_queued host evs s s' :
  well_formed s → run host evs s = Some s' →
  continuations_ s' = continuations_ s ++ requested evs
  ∧ ∀ k, k ∈ continuations_ s →
         (length (resolutions k (effects s)) + finishes evs
          ≤ length (resolutions k (effects s')))%nat.
Proof.
  intros Hwf Hrun.
  destruct (run_trace host evs s s' Hwf Hrun) as (out & He & Hk & _ & _ & Hfin).
  split; [done|]. intros k Hin.
  rewrite He, resolutions_app, length_app. specialize (Hfin k Hin). lia.
Qed.

Lemma queued_continuations_stay_queued_witness :
  let host := host_of ∅ in
  let s := addContinuation 7 initial in
  let evs := [Request None; DriverFinish; Request (Some 8); DriverFinish] in
  let s' := default s (run host evs s) in
  continuations_ s' = continuations_ s ++ requested evs
  ∧ ∀ k, k ∈ continuations_ s →
         (length (resolutions k (effects s)) + finishes evs
          ≤ length (resolutions k (effects s')))%nat.
Proof.
  intros host s evs s'.
  apply (queued_continuations_stay_queued host evs s s'); [|vm_compute; reflexivity].
  split; [by exists ∅|]. split; [done|]. by left.
Defined.

(** X12: a continuation is only ever called with [Success()] and a
    response whose result is set, and only at the end of a walk:
    requests, reported files and console lines resolve nothing. The
    trace of effects is only ever extended. *)
Theorem continuations_only_see_success host evs s s' :
  well_formed s → run host evs s = Some s' →
  ∃ out,
    effects s' = effects s ++ out
    ∧ Forall reports_success out
    ∧ (Forall (λ ev, is_finish ev = false) evs → ∀ k, resolutions k out = []).
Proof.
  intros Hwf Hrun.
  destruct (run_trace host evs s s' Hwf Hrun) as (out & He & _ & Hok & Hno & _).
  eauto.
Qed.

Lemma continuations_only_see_success_witness :
  let host := host_of ∅ in
  let evs := [Request (Some 7); DriverFinish] in
  let s' := default initial (run host evs initial) in
  ∃ out,
    effects s' = effects initial ++ out
    ∧ Forall reports_success out
    ∧ (Forall (λ ev, is_finish ev = false) evs → ∀ k, resolutions k out = []).
Proof.
  intros host evs s'.
  apply (continuations_only_see_success host evs initial s'); [|vm_compute; reflexivity].
  split; [by exists ∅|]. split; [done|]. by left.
Defined.

Lemma step_keeps_objects host s ev s1 a (R : Registry) :
  well_formed s → step host s ev = Some s1 →
  heap s !! a = Some R → (running s = true → pRegistry_ s ≠ Some a) →
  heap s1 !! a = Some R ∧ (running s1 = true → pRegistry_ s1 ≠ Some a).
Proof.
  intros (Hcur & Hreg & Hcmd) Hstep Ha Hnot.
  assert (a < length (heap s)) as Hlt by by eapply lookup_lt_Some.
  destruct (running s) eqn:Hrun.
  - destruct (Hreg eq_refl) as [Rp HR]. unfold deref in HR.
    destruct (pRegistry_ s) as [p|] eqn:Hp; simpl in HR; [|done].
    assert (p ≠ a) as Hne by (intros ->; by apply Hnot).
    destruct (is_finish ev) eqn:Hev.
    + destruct ev; try done. simpl in Hstep.
      destruct (driver_finish_spec host s p Rp Hrun Hp HR)
        as (s2 & errors & Hfin & Hr2 & _ & _ & Hh2 & _).
      rewrite Hfin in Hstep. simplify_eq.
      split; [by rewrite Hh2, list_lookup_insert_ne|]. congruence.
    + destruct (step_during_pass host s ev p Rp Hev Hrun Hp HR)
        as (s2 & out & Hstep2 & _ & Hp2 & _ & Hh2 & _).
      rewrite Hstep2 in Hstep. simplify_eq.
      split; [by rewrite Hh2, list_lookup_insert_ne|]. congruence.
  - destruct ev as [k|pkgName path| |input]; simpl in Hstep.
    + simplify_eq.
      destruct (request_when_idle k s Hrun) as (_ & Hp0 & Hh0 & _).
      split; [rewrite Hh0; rewrite lookup_app_l by exact Hlt; exact Ha|].
      intros _. rewrite Hp0. intros [= Heq]. lia.
    + unfold driver_work in Hstep. by rewrite Hrun in Hstep.
    + unfold driver_finish in Hstep. by rewrite Hrun in Hstep.
    + simplify_eq.
      destruct (onConsoleInput_frame host input s) as (-> & -> & _).
      split; [done|]. by rewrite Hrun.
Qed.

(** X13: a registry object is written only while it is the one the
    running pass fills. Every other object that exists, the published
    registry among them, keeps its contents through any run: later
    passes write to objects of their own. *)
Theorem published_registries_are_never_written host evs : ∀ s s' a (R : Registry),
  well_formed s → run host evs s = Some s' →
  heap s !! a = Some R → (running s = true → pRegistry_ s ≠ Some a) →
  heap s' !! a = Some R.
Proof.
  induction evs as [|ev evs IH]; intros s s' a R Hwf; cbn [run].
  - by intros [= <-].
  - intros (s1 & Hstep & Hrun)%bind_Some Ha Hnot.
    destruct (step_keeps_objects host s ev s1 a R Hwf Hstep Ha Hnot) as [Ha1 Hnot1].
    apply (IH s1 s' a R); [by eapply well_formed_step|done..].
Qed.

Lemma published_registries_are_never_written_witness :
  let before := host_of {[ "old.dcf" := "Name: old" ]} in
  let s := default initial
             (run before [Request None; DriverWork "a" "old.dcf"; DriverFinish] initial) in
  let host := host_of {[ "new.dcf" := "Name: new" ]} in
  let evs := [Request None; DriverWork "b" "new.dcf"; DriverFinish; Request None] in
  let s' := default s (run host evs s) in
  heap s' !! 1 = Some ({[ "a::old" := mkEntry "old" "a" ]} : Registry).
Proof.
  intros before s host evs s'.
  apply (published_registries_are_never_written host evs s s' 1);
    [|vm_compute; reflexivity|vm_compute; reflexivity|discriminate].
  split; [by eexists|]. split; [discriminate|]. by left.
Defined.

Lemma step_protocol host s ev :
  well_formed s →
  match protocol [ev] (running s) with
  | Some b => ∃ s1, step host s ev = Some s1 ∧ running s1 = b
  | None => step host s ev = None
  end.
Proof.
  intros Hwf. destruct ev as [k|pkgName path| |input]; simpl.
  - eexists. split; [done|].
    unfold indexLibraryPathsWithContinuation, start, running.
    destruct k; simpl; destruct (running_ s) eqn:E; simpl; done.
  - destruct (running s) eqn:Hrun; [|unfold driver_work; by rewrite Hrun].
    destruct (step_enabled host s (DriverWork pkgName path) Hwf Hrun) as [s1 Hs1].
    exists s1. split; [done|].
    destruct Hwf as (_ & Hreg & _). destruct (Hreg Hrun) as [R HR]. unfold deref in HR.
    destruct (pRegistry_ s) as [p|] eqn:Hp; simpl in HR; [|done].
    destruct (step_during_pass host s (DriverWork pkgName path) p R eq_refl Hrun Hp HR)
      as (s2 & out & Hstep2 & Hr2 & _). congruence.
  - destruct (running s) eqn:Hrun; [|unfold driver_finish; by rewrite Hrun].
    destruct Hwf as (_ & Hreg & _). destruct (Hreg Hrun) as [R HR]. unfold deref in HR.
    destruct (pRegistry_ s) as [p|] eqn:Hp; simpl in HR; [|done].
    destruct (driver_finish_spec host s p R Hrun Hp HR) as (s2 & errors & -> & Hr2 & _).
    eauto.
  - eexists. split; [done|].
    by destruct (onConsoleInput_frame host input s) as (_ & -> & _).
Qed.

Lemma protocol_cons ev evs b :
  protocol (ev :: evs) b = protocol [ev] b ≫= protocol evs.
Proof. destruct ev as [k|pkgName path| |input]; simpl; by destruct b. Qed.

Lemma run_protocol host evs : ∀ s,
  well_formed s →
  match protocol evs (running s) with
  | Some b => ∃ s', run host evs s = Some s' ∧ running s' = b ∧ well_formed s'
  | None => run host evs s = None
  end.
Proof.
  induction evs as [|ev evs IH]; intros s Hwf.
  - simpl. eauto.
  - rewrite protocol_cons. cbn [run].
    pose proof (step_protocol host s ev Hwf) as Hstep.
    destruct (protocol [ev] (running s)) as [b|]; simpl.
    + destruct Hstep as (s1 & Hs1 & <-). rewrite Hs1. simpl.
      apply IH. by eapply well_formed_step.
    + by rewrite Hstep.
Qed.

(** X14: when the driver keeps to its protocol (it reports files and
    the end of the walk only during a pass), every event from start-up on
    is carried out, the indexer ends running or idle as the protocol
    says, [connectionsRegistry()] has a registry to return, and while a
    pass is running [onWork] and [onIndexingCompleted] find a registry
    behind [pRegistry_]: neither dereferences a null pointer. *)
Theorem protocol_keeps_pointers_valid host evs b :
  protocol evs false = Some b →
  ∃ s,
    run host evs initial = Some s
    ∧ running s = b
    ∧ is_Some (connectionsRegistry s)
    ∧ (b = true →
       is_Some (deref (pRegistry_ s) s)
       ∧ (∀ pkgName path, is_Some (onWork host pkgName path s))
       ∧ is_Some (onIndexingCompleted host s)).
Proof.
  intros Hprot.
  pose proof (run_protocol host evs initial well_formed_initial) as Hrun.
  change (running initial) with false in Hrun. rewrite Hprot in Hrun.
  destruct Hrun as (s & Hrun & Hb & Hwf). exists s.
  split; [done|]. split; [done|].
  pose proof Hwf as (Hcur & Hreg & _). split; [done|].
  intros ->. specialize (Hreg Hb). split; [done|]. split.
  - intros pkgName path. by apply onWork_is_Some.
  - destruct (step_enabled host s DriverFinish Hwf Hb) as [s' Hs'].
    simpl in Hs'. unfold driver_finish in Hs'. rewrite Hb in Hs'.
    apply fmap_Some in Hs' as (s1 & -> & _). eauto.
Qed.

Lemma protocol_keeps_pointers_valid_witness :
  let host := host_of {[ "connections.dcf" := "Name: pg" ]} in
  let evs := [Request None; DriverFinish; ConsoleInput "x <- 1"; Request (Some 7);
              DriverWork "odbc" "connections.dcf"] in
  ∃ s,
    run host evs initial = Some s
    ∧ running s = true
    ∧ is_Some (connectionsRegistry s)
    ∧ (true = true →
       is_Some (deref (pRegistry_ s) s)
       ∧ (∀ pkgName path, is_Some (onWork host pkgName path s))
       ∧ is_Some (onIndexingCompleted host s)).
Proof.
  intros host evs.
  apply (protocol_keeps_pointers_valid host evs true). reflexivity.
Defined.

(** ** Requests without a continuation *)

(** X15: [indexLibraryPaths()] leaves the indexer running, and calling it
    again changes nothing: while a pass is running the call is dropped,
    and whatever happens next happens as if it had not been made. *)
Theorem indexLibraryPaths_idempotent host :
  (∀ s, running (indexLibraryPaths s) = true
        ∧ indexLibraryPaths (indexLibraryPaths s) = indexLibraryPaths s
        ∧ perform indexLibraryPathsWork (onDeferredInit true s) = onDeferredInit true s)
  ∧ (∀ s evs, running s = true →
              run host (Request None :: evs) s = run host evs s).
Proof.
  assert (∀ s, running s = true → indexLibraryPaths s = s) as Hdrop.
  { intros s Hrun. unfold indexLibraryPaths, indexLibraryPathsWithContinuation.
    by rewrite Hrun. }
  assert (∀ s, running (indexLibraryPaths s) = true) as Hrun.
  { intros s. unfold indexLibraryPaths, indexLibraryPathsWithContinuation, start, running.
    destruct (running_ s) eqn:E; simpl; done. }
  split.
  - intros s. split; [apply Hrun|]. split; apply Hdrop, Hrun.
  - intros s evs Hs. cbn [run step]. fold (indexLibraryPaths s).
    by rewrite (Hdrop s Hs).
Qed.

Lemma indexLibraryPaths_idempotent_witness :
  let host := host_of ∅ in
  run host (Request None :: [DriverFinish]) (start initial)
  = run host [DriverFinish] (start initial).
Proof.
  intros host.
  apply (proj2 (indexLibraryPaths_idempotent host) (start initial) [DriverFinish]).
  reflexivity.
Defined.

(** ** Console lines *)

Lemma onConsoleInput_emit host input s :
  disablePackages host = false →
  commands s = [] ∨ commands s = known_commands →
  onConsoleInput host input s =
  emit (if mutates_library input
        then [scheduleDelayedWork 1 indexLibraryPathsWork true] else [])
       (set_commands known_commands s).
Proof.
  intros Hdis Hcmds. unfold onConsoleInput, mutates_library. rewrite Hdis.
  destruct Hcmds as [Hc|Hc]; rewrite Hc.
  - match goal with |- context [scan_commands ?t ?c ?s0] =>
      destruct (effects_scan_commands t c s0) as (scheduled & -> & ->)
    end. done.
  - match goal with |- context [scan_commands ?t ?c ?s0] =>
      destruct (effects_scan_commands t c s0) as (scheduled & -> & ->)
    end.
    change (match known_commands with
            | [] => set_commands known_commands s
            | _ :: _ => s
            end) with s.
    rewrite Hc. f_equal. destruct s. simpl in Hc. by subst.
Qed.

(** X16: console lines are not coalesced. With the packages pane
    enabled, a sequence of lines schedules one re-index for each line
    that starts with a package-mutating command, however many follow one
    another, and touches nothing else of the indexer; with the pane
    disabled the lines leave the state as it is. *)
Theorem console_lines_schedule_one_each host inputs s :
  commands s = [] ∨ commands s = known_commands →
  ∃ s',
    run host (ConsoleInput <$> inputs) s = Some s'
    ∧ effects s' =
        effects s ++
        (if disablePackages host then []
         else replicate (length (filter (λ input, mutates_library input = true) inputs))
                        (scheduleDelayedWork 1 indexLibraryPathsWork true))
    ∧ heap s' = heap s ∧ running s' = running s
    ∧ pRegistry_ s' = pRegistry_ s
    ∧ s_pCurrentConnectionsRegistry s' = s_pCurrentConnectionsRegistry s
    ∧ continuations_ s' = continuations_ s
    ∧ (disablePackages host = true → s' = s).
Proof.
  revert s. induction inputs as [|input inputs IH]; intros s Hcmds.
  - exists s. simpl. destruct (disablePackages host);
      by rewrite (right_id_L [] (++)).
  - rewrite fmap_cons. cbn [run step mbind option_bind].
    destruct (disablePackages host) eqn:Hdis.
    + assert (onConsoleInput host input s = s) as ->
        by (unfold onConsoleInput; by rewrite Hdis).
      destruct (IH s Hcmds) as (s' & Hrun & He & Hrest). exists s'.
      split; [done|]. by split.
    + rewrite (onConsoleInput_emit host input s Hdis Hcmds).
      destruct (IH (emit (if mutates_library input
                          then [scheduleDelayedWork 1 indexLibraryPathsWork true]
                          else []) (set_commands known_commands s)))
        as (s' & Hrun & He & Hh & Hr & Hp & Hc & Hk & _); [by right|].
      exists s'. split; [done|].
      split.
      { rewrite He. simpl. rewrite <- (assoc_L (++)). f_equal.
        rewrite filter_cons. destruct (mutates_library input) eqn:Hm.
        - by rewrite decide_True.
        - by rewrite decide_False by (by intros ?). }
      by repeat split.
Qed.

Lemma console_lines_schedule_one_each_witness :
  let host := host_of ∅ in
  let inputs := ["install.packages(x)"; "x <- 1"; "  devtools::load_all()"] in
  ∃ s',
    run host (ConsoleInput <$> inputs) initial = Some s'
    ∧ effects s' =
        effects initial ++
        (if disablePackages host then []
         else replicate (length (filter (λ input, mutates_library input = true) inputs))
                        (scheduleDelayedWork 1 indexLibraryPathsWork true))
    ∧ heap s' = heap initial ∧ running s' = running initial
    ∧ pRegistry_ s' = pRegistry_ initial
    ∧ s_pCurrentConnectionsRegistry s' = s_pCurrentConnectionsRegistry initial
    ∧ continuations_ s' = continuations_ initial
    ∧ (disablePackages host = true → s' = initial).
Proof.
  intros host inputs.
  apply (console_lines_schedule_one_each host inputs initial).
  left. reflexivity.
Defined.

Lemma rev_app_append s acc t :
  String.rev_app s acc +:+ t = String.rev_app s (acc +:+ t).
Proof. revert acc. induction s as [|c s IH]; intros acc; simpl; [done|]. by rewrite IH. Qed.

Lemma rev_cons c s : String.rev (String c s) = String.rev s +:+ String c EmptyString.
Proof. unfold String.rev. simpl. by rewrite rev_app_append. Qed.

Lemma rev_append a b : String.rev (a +:+ b) = String.rev b +:+ String.rev a.
Proof.
  induction a as [|c a IH]; [by rewrite append_nil_l, append_nil_r|].
  by rewrite append_cons, !rev_cons, IH, append_assoc_L.
Qed.

Lemma rev_involutive s : String.rev (String.rev s) = s.
Proof.
  induction s as [|c s IH]; [done|].
  by rewrite rev_cons, rev_append, IH.
Qed.

Lemma all_space_append a b : all_space (a +:+ b) = all_space a && all_space b.
Proof.
  induction a as [|c a IH]; [done|]. rewrite append_cons. simpl.
  by rewrite IH, andb_assoc.
Qed.

Lemma all_space_rev s : all_space (String.rev s) = all_space s.
Proof.
  induction s as [|c s IH]; [done|].
  rewrite rev_cons, all_space_append, IH. simpl.
  by rewrite andb_true_r, andb_comm.
Qed.

Lemma trim_left_all_space w : all_space w = true → trim_left w = EmptyString.
Proof.
  induction w as [|c w IH]; simpl; [done|].
  intros [-> Hw]%andb_prop. by apply IH.
Qed.

Lemma trim_left_skip w x : all_space w = true → trim_left (w +:+ x) = trim_left x.
Proof.
  induction w as [|c w IH]; [done|]. rewrite append_cons. simpl.
  intros [-> Hw]%andb_prop. by apply IH.
Qed.

Lemma trim_left_append s w :
  all_space s = false → trim_left (s +:+ w) = trim_left s +:+ w.
Proof.
  induction s as [|c s IH]; [done|]. rewrite append_cons. simpl.
  destruct (is_space c); simpl; [exact IH|done].
Qed.

Lemma trim_right_skip u w : all_space w = true → trim_right (u +:+ w) = trim_right u.
Proof.
  intros Hw. unfold trim_right.
  by rewrite rev_append, trim_left_skip by by rewrite all_space_rev.
Qed.

Lemma trim_copy_surrounded w1 input w2 :
  all_space w1 = true → all_space w2 = true →
  trim_copy (w1 +:+ input +:+ w2) = trim_copy input.
Proof.
  intros H1 H2. unfold trim_copy. rewrite trim_left_skip by done.
  destruct (all_space input) eqn:E.
  - rewrite trim_left_skip by done.
    by rewrite !trim_left_all_space.
  - by rewrite trim_left_append, trim_right_skip.
Qed.

(** X17: white space around a console line does not matter:
    [onConsoleInput] treats the line with spaces, tabs or line ends before
    and after it exactly as it treats the line itself. *)
Theorem onConsoleInput_ignores_surrounding_space host w1 input w2 s :
  all_space w1 = true → all_space w2 = true →
  onConsoleInput host (w1 +:+ input +:+ w2) s = onConsoleInput host input s.
Proof.
  intros H1 H2. unfold onConsoleInput. by rewrite trim_copy_surrounded.
Qed.

Lemma onConsoleInput_ignores_surrounding_space_witness :
  onConsoleInput (host_of ∅) ("  " +:+ "load_all()" +:+ nl) initial
  = onConsoleInput (host_of ∅) "load_all()" initial.
Proof.
  apply (onConsoleInput_ignores_surrounding_space (host_of ∅) "  " "load_all()" nl initial);
    reflexivity.
Defined.

Lemma trim_right_append a b :
  trim_left (String.rev a) = String.rev a → a ≠ EmptyString →
  trim_right (a +:+ b) = a +:+ trim_right b.
Proof.
  intros Ha Hne. unfold trim_right. rewrite rev_append.
  destruct (all_space (String.rev b)) eqn:E.
  - rewrite trim_left_skip, (trim_left_all_space (String.rev b)), Ha by done.
    by rewrite rev_involutive, append_nil_r.
  - rewrite trim_left_append by done.
    by rewrite rev_append, rev_involutive.
Qed.

Lemma prefix_append a b : String.prefix a (a +:+ b) = true.
Proof.
  induction a as [|c a IH]; [by destruct b|]. rewrite append_cons. simpl.
  by destruct (Ascii.ascii_dec c c).
Qed.

(** X18: commands are recognised by prefix alone. With the packages pane
    enabled, any line that begins with one of the six command names
    schedules a re-index, whatever follows the name, be it an argument
    list or more letters of a longer identifier. *)
Theorem onConsoleInput_matches_by_prefix host command rest s :
  disablePackages host = false →
  commands s = [] ∨ commands s = known_commands →
  command ∈ known_commands →
  effects (onConsoleInput host (command +:+ rest) s)
  = effects s ++ [scheduleDelayedWork 1 indexLibraryPathsWork true].
Proof.
  intros Hdis Hcmds Hin. rewrite onConsoleInput_emit by done.
  assert (mutates_library (command +:+ rest) = true) as ->; [|done].
  assert (trim_copy (command +:+ rest) = command +:+ trim_right rest) as Htrim.
  { unfold trim_copy, known_commands in *.
    repeat (apply elem_of_cons in Hin as [->|Hin]);
      [..|by apply not_elem_of_nil in Hin];
      by rewrite <- trim_right_append. }
  unfold mutates_library. rewrite Htrim. unfold known_commands in *.
  repeat (apply elem_of_cons in Hin as [->|Hin]);
    [..|by apply not_elem_of_nil in Hin];
    cbn [existsb]; unfold starts_with; rewrite prefix_append;
    by rewrite ?orb_true_r.
Qed.

Lemma onConsoleInput_matches_by_prefix_witness :
  effects (onConsoleInput (host_of ∅) ("load_all" +:+ "_my_data()") initial)
  = effects initial ++ [scheduleDelayedWork 1 indexLibraryPathsWork true].
Proof.
  apply (onConsoleInput_matches_by_prefix (host_of ∅) "load_all" "_my_data()" initial);
    [reflexivity | by left |].
  unfold known_commands. repeat constructor.
Defined.

(** ** The order in which the driver reports packages *)

Lemma foldl_add_fields_union pkgName (fields : string → gmap string string) blocks :
  ∀ r : Registry,
    foldl (λ r block, add_fields pkgName (fields block) r) r blocks
    = foldl (λ r block, add_fields pkgName (fields block) r) ∅ blocks ∪ r.
Proof.
  induction blocks as [|b blocks IH]; intros r; simpl.
  - by rewrite (left_id_L ∅ (∪)).
  - rewrite (IH (add_fields _ _ r)), (IH (add_fields _ _ ∅)).
    rewrite !add_fields_key, <- (assoc_L (∪)). f_equal.
    by rewrite insert_empty, <- insert_union_singleton_l.
Qed.

(** What a file writes does not depend on the registry it is added to. *)
Lemma add_path_union host pkgName path (r : Registry) :
  (add_path host pkgName path r).1 = (add_path host pkgName path ∅).1 ∪ r.
Proof.
  rewrite !add_path_eq. destruct (readStringFromFile host path) as [error contents].
  destruct (isError error); simpl; [by rewrite (left_id_L ∅ (∪))|].
  apply (foldl_add_fields_union pkgName (λ block, (parseDcfFile host block).2)).
Qed.

Lemma add_path_swap host p1 path1 p2 path2 (r : Registry) :
  no_colon p1 = true → no_colon p2 = true → p1 ≠ p2 →
  (add_path host p1 path1 (add_path host p2 path2 r).1).1
  = (add_path host p2 path2 (add_path host p1 path1 r).1).1.
Proof.
  intros H1 H2 Hne.
  rewrite (add_path_union host p1 path1 (add_path host p2 path2 r).1).
  rewrite (add_path_union host p2 path2 (add_path host p1 path1 r).1).
  rewrite (add_path_union host p2 path2 r), (add_path_union host p1 path1 r).
  rewrite !(assoc_L (∪)). f_equal. apply map_union_comm.
  apply map_disjoint_spec. intros key e1 e2 He1 He2.
  apply add_path_own in He1 as [He1|[_ He1]]; [by rewrite lookup_empty in He1|].
  apply add_path_own in He2 as [He2|[_ He2]]; [by rewrite lookup_empty in He2|].
  rewrite He1 in He2. apply constructKey_inj in He2 as [? _]; done.
Qed.

(** X19: when every package is reported once and no package name holds a
    colon, the registry a pass builds does not depend on the order in
    which the driver reports the descriptor files. *)
Theorem scanned_order_irrelevant host files files' (r : Registry) :
  files ≡ₚ files' →
  NoDup files.*1 → Forall (λ f, no_colon f.1 = true) files →
  scanned host files r = scanned host files' r.
Proof.
  intros Hperm. revert r.
  induction Hperm as [|f l l' Hperm IH|f g l|l l' l'' Hperm1 IH1 Hperm2 IH2];
    intros r Hnodup Hcolon.
  - done.
  - apply NoDup_cons in Hnodup as [_ Hnodup]. apply Forall_cons in Hcolon as [_ Hcolon].
    unfold scanned in *. simpl. by apply IH.
  - apply NoDup_cons in Hnodup as [Hg _]. apply Forall_cons in Hcolon as [Hg1 Hcolon].
    apply Forall_cons in Hcolon as [Hf1 _].
    unfold scanned. simpl. f_equal. apply add_path_swap; [done..|].
    intros Heq. apply Hg. rewrite Heq. set_solver.
  - rewrite IH1 by done. apply IH2.
    + by rewrite <- Hperm1.
    + by rewrite <- Hperm1.
Qed.

Lemma scanned_order_irrelevant_witness :
  let host := host_of {[ "a.dcf" := "Name: pg"; "b.dcf" := "Name: sqlite" ]} in
  scanned host [("odbc", "a.dcf"); ("RSQLite", "b.dcf")] ∅
  = scanned host [("RSQLite", "b.dcf"); ("odbc", "a.dcf")] ∅.
Proof.
  intros host.
  apply (scanned_order_irrelevant host
           [("odbc", "a.dcf"); ("RSQLite", "b.dcf")]
           [("RSQLite", "b.dcf"); ("odbc", "a.dcf")] ∅).
  - apply perm_swap.
  - apply NoDup_cons. split; [|apply NoDup_singleton].
    intros Hin. apply list_elem_of_singleton in Hin. discriminate.
  - repeat constructor.
Defined.

(** ** What one file contributes *)

Lemma foldl_add_fields_lookup pkgName (fields : string → gmap string string) blocks :
  ∀ key e,
    foldl (λ r block, add_fields pkgName (fields block) r) ∅ blocks !! key = Some e ↔
    ∃ block, block ∈ blocks
             ∧ key = constructKey pkgName (default "" (fields block !! "Name"))
             ∧ e = mkEntry (default "" (fields block !! "Name")) pkgName.
Proof.
  induction blocks as [|b blocks IH] using rev_ind; intros key e.
  - simpl. rewrite lookup_empty. split; [done|]. by intros (? & ?%not_elem_of_nil & _).
  - rewrite foldl_snoc, add_fields_lookup. case_decide as Hk.
    + split.
      * intros [= <-]. exists b. split; [set_solver|done].
      * intros (b' & _ & -> & ->).
        apply constructKey_inj_name in Hk. by rewrite Hk.
    + rewrite IH. split.
      * intros (b' & Hin & ? & ?). exists b'. split; [set_solver|done].
      * intros (b' & Hin & -> & ->).
        apply elem_of_app in Hin as [Hin|Hin%list_elem_of_singleton].
        -- by exists b'.
        -- by subst.
Qed.

(** X20: what a descriptor file contributes. Read without error, it
    yields for each of its blocks the entry of that block's [Name] (the
    empty name when there is none) under [pkgName::Name], and nothing
    else; blocks that share a name yield one entry. These entries replace
    what the registry held under their keys and every other entry stays. *)
Theorem add_path_contribution host pkgName path contents (r : Registry) :
  readStringFromFile host path = (Success, contents) →
  let name block := default "" ((parseDcfFile host block).2 !! "Name") in
  (∀ key e,
     (add_path host pkgName path ∅).1 !! key = Some e ↔
     ∃ block, block ∈ tokens contents
              ∧ key = constructKey pkgName (name block)
              ∧ e = mkEntry (name block) pkgName)
  ∧ (add_path host pkgName path r).1 = (add_path host pkgName path ∅).1 ∪ r.
Proof.
  intros Hread name. split; [|apply add_path_union].
  intros key e. rewrite add_path_eq, Hread. simpl.
  apply (foldl_add_fields_lookup pkgName (λ block, (parseDcfFile host block).2)).
Qed.

Lemma add_path_contribution_witness :
  let host := host_of {[ "connections.dcf" := "Name: pg" +:+ LFs 2 +:+ "Name: pg" ]} in
  let r : Registry := {[ "odbc::pg" := mkEntry "stale" "odbc" ]} in
  (add_path host "odbc" "connections.dcf" r).1
  = (add_path host "odbc" "connections.dcf" ∅).1 ∪ r.
Proof.
  intros host r.
  apply (add_path_contribution host "odbc" "connections.dcf"
           ("Name: pg" +:+ LFs 2 +:+ "Name: pg") r).
  reflexivity.
Defined.


(** ** Blocks and entries of a whole file *)

Lemma starts_with_LF_assemble b rest :
  b ≠ EmptyString → starts_with_LF (assemble b rest) = starts_with_LF b.
Proof.
  intros Hne. destruct rest as [|[n b'] rest]; [done|].
  simpl. by apply starts_with_LF_app.
Qed.

(** A text assembled from well-separated blocks is split into exactly
    these blocks, however many there are and however long the runs. *)
Lemma tokens_assemble rest : ∀ b,
  separated b rest → tokens (assemble b rest) = b :: rest.*2.
Proof.
  induction rest as [|[n b'] rest IH]; intros b; simpl.
  - intros [Hb Hne]. by apply tokens_single.
  - intros (Hb & He & Hn & Hne & Hs & Hsep).
    rewrite tokens_separator; [|done..|by rewrite starts_with_LF_assemble].
    by rewrite IH.
Qed.

Lemma remove_dups_fmap_inj {A B} `{EqDecision A, EqDecision B} (f : A → B) (l : list A) :
  Inj (=) (=) f → remove_dups (f <$> l) = f <$> remove_dups l.
Proof.
  intros Hinj. induction l as [|x l IH]; [done|]. rewrite fmap_cons. cbn [remove_dups].
  destruct (decide_rel elem_of x l) as [Hin|Hin];
    destruct (decide_rel elem_of (f x) (f <$> l)) as [Hin'|Hin'].
  - done.
  - exfalso. apply Hin'. by apply list_elem_of_fmap_inj.
  - exfalso. apply Hin. by eapply list_elem_of_fmap_inj_2.
  - by rewrite fmap_cons, IH.
Qed.

(** The entries a file leaves in a fresh registry are as many as there
    are different names among its blocks. *)
Lemma size_foldl_add_fields pkgName (fields : string → gmap string string) blocks :
  size (foldl (λ r block, add_fields pkgName (fields block) r) ∅ blocks)
  = length (remove_dups ((λ block, default "" (fields block !! "Name")) <$> blocks)).
Proof.
  unfold size. rewrite <- size_dom.
  assert (dom (foldl (λ r block, add_fields pkgName (fields block) r) ∅ blocks)
          = list_to_set ((λ block, constructKey pkgName
                                     (default "" (fields block !! "Name"))) <$> blocks))
    as ->.
  { apply set_eq. intros key. rewrite elem_of_dom, elem_of_list_to_set, list_elem_of_fmap.
    split.
    - intros [e (block & Hin & -> & _)%foldl_add_fields_lookup]. eauto.
    - intros (block & -> & Hin). eexists.
      apply foldl_add_fields_lookup. eauto. }
  rewrite size_remove_dups.
  replace ((λ block, constructKey pkgName (default "" (fields block !! "Name"))) <$> blocks)
    with (constructKey pkgName <$> ((λ block, default "" (fields block !! "Name")) <$> blocks))
    by (by rewrite <- list_fmap_compose).
  rewrite remove_dups_fmap_inj, length_fmap; [done|].
  intros n1 n2. apply constructKey_inj_name.
Qed.

(** C5, where the claim fails: two blocks separated by three blank lines
    give one entry, not two, when they have the same name, and also when
    neither has a name. Both files are read and parsed without error. *)
Lemma two_blocks_can_give_one_entry :
  let same := host_of {[ "connections.dcf" := "Name: pg" +:+ LFs 4 +:+ "Name: pg" ]} in
  let nameless := host_of {[ "connections.dcf" := "Type: a" +:+ LFs 4 +:+ "Type: b" ]} in
  tokens ("Name: pg" +:+ LFs 4 +:+ "Name: pg") = ["Name: pg"; "Name: pg"]
  ∧ add_path same "odbc" "connections.dcf" ∅
    = ({[ "odbc::pg" := mkEntry "pg" "odbc" ]}, [])
  ∧ size (add_path same "odbc" "connections.dcf" ∅).1 = 1
  ∧ tokens ("Type: a" +:+ LFs 4 +:+ "Type: b") = ["Type: a"; "Type: b"]
  ∧ add_path nameless "odbc" "connections.dcf" ∅
    = ({[ "odbc::" := mkEntry "" "odbc" ]}, [])
  ∧ size (add_path nameless "odbc" "connections.dcf" ∅).1 = 1.
Proof.
  cbv zeta. repeat split; by vm_compute.
Qed.

(** C5, as the code has it: every run of two or more line feeds is one
    separator, so a text of any number of well-separated blocks is split
    into exactly these blocks, and [add] is called once for each, in
    order. Because [add] overwrites under [pkgName::Name], a fresh
    registry then holds one entry for each different name among the
    blocks, a missing name counting as the empty one. For two blocks
    separated by three blank lines (or by any other run) that is two
    entries when their names differ and one entry when they do not. *)
Theorem add_path_one_add_per_block host pkgName path b rest (r : Registry) :
  separated b rest →
  readStringFromFile host path = (Success, assemble b rest) →
  let blocks := b :: rest.*2 in
  let name block := default "" ((parseDcfFile host block).2 !! "Name") in
  tokens (assemble b rest) = blocks
  ∧ (add_path host pkgName path r).1
    = foldl (λ r block, add_fields pkgName (parseDcfFile host block).2 r) r blocks
  ∧ size (add_path host pkgName path ∅).1 = length (remove_dups (name <$> blocks))
  ∧ (∀ n b2, rest = [(n, b2)] →
       size (add_path host pkgName path ∅).1
       = if decide (name b = name b2) then 1 else 2).
Proof.
  intros Hsep Hread blocks name.
  pose proof (tokens_assemble rest b Hsep) as Htok.
  assert (∀ r0 : Registry,
            (add_path host pkgName path r0).1
            = foldl (λ r block, add_fields pkgName (parseDcfFile host block).2 r)
                    r0 blocks) as Hadd.
  { intros r0. rewrite (add_path_read_ok _ _ _ _ _ Hread), Htok.
    by rewrite foldl_add_block_fst. }
  assert (size (add_path host pkgName path ∅).1
          = length (remove_dups (name <$> blocks))) as Hsize.
  { rewrite Hadd.
    apply (size_foldl_add_fields pkgName (λ block, (parseDcfFile host block).2)). }
  split; [done|]. split; [apply Hadd|]. split; [done|].
  intros n b2 ->. rewrite Hsize. unfold blocks.
  change (name <$> b :: [(n, b2)].*2) with [name b; name b2].
  cbn [remove_dups].
  destruct (decide_rel elem_of (name b2) []) as [Hnil|_];
    [by apply not_elem_of_nil in Hnil|].
  destruct (decide_rel elem_of (name b) [name b2]) as [Hin|Hin];
    destruct (decide (name b = name b2)) as [Heq|Hne]; try done.
  - apply list_elem_of_singleton in Hin. done.
  - exfalso. apply Hin. rewrite Heq. by apply list_elem_of_singleton.
Qed.

Lemma add_path_one_add_per_block_witness :
  let host := host_of {[ "connections.dcf" :=
                           "Name: pg" +:+ LFs 4 +:+ "Name: sqlite" +:+ nl ]} in
  let b := "Name: pg" in
  let rest := [(4, "Name: sqlite" +:+ nl)] in
  let blocks := b :: rest.*2 in
  let name block := default "" ((parseDcfFile host block).2 !! "Name") in
  tokens (assemble b rest) = blocks
  ∧ (add_path host "odbc" "connections.dcf" ∅).1
    = foldl (λ r block, add_fields "odbc" (parseDcfFile host block).2 r) ∅ blocks
  ∧ size (add_path host "odbc" "connections.dcf" ∅).1
    = length (remove_dups (name <$> blocks))
  ∧ (∀ n b2, rest = [(n, b2)] →
       size (add_path host "odbc" "connections.dcf" ∅).1
       = if decide (name b = name b2) then 1 else 2).
Proof.
  intros host b rest blocks name.
  apply (add_path_one_add_per_block host "odbc" "connections.dcf" b rest ∅).
  - simpl. repeat split; try reflexivity; try discriminate; lia.
  - reflexivity.
Defined.
